(** * Mandatory inlining of transparent functions (SILOptimizer/Mandatory/MandatoryInlining.cpp)

    Two shallow embeddings of the pass:
    - [CalleeResolution]: value-level model of a SIL function body (instructions
      with result ids and operands), used for [getCalleeFunction],
      [fixupReferenceCounts] and [cleanupLoadedCalleeValue], and, in
      [CalleeCleanup], for [cleanupCalleeValue] and [ClosureCleanup];
    - [Driver]: call-level model of [runOnFunctionRecursively] and of
      [MandatoryInlining::run], where an apply site names its callee directly. *)

From Stdlib Require Import List Bool Arith Lia Relations FunctionalExtensionality.
Import ListNotations.

Definition FName := nat.
Definition ValueId := nat.

Inductive SILFunctionTypeRepresentation :=
| Thick | Thin | Method | ObjCMethod | WitnessMethod | CFunctionPointer
| Closure | Block.

Definition repr_eqb (a b : SILFunctionTypeRepresentation) : bool :=
  match a, b with
  | Thick, Thick | Thin, Thin | Method, Method | ObjCMethod, ObjCMethod
  | WitnessMethod, WitnessMethod | CFunctionPointer, CFunctionPointer
  | Closure, Closure | Block, Block => true
  | _, _ => false
  end.

(** The [switch] on the callee representation in [getCalleeFunction]:
    foreign conventions are never inlined. *)
Definition isForeignRepresentation (r : SILFunctionTypeRepresentation) : bool :=
  match r with
  | CFunctionPointer | ObjCMethod | Block => true
  | Thick | Thin | Method | Closure | WitnessMethod => false
  end.

Module CalleeResolution.

Inductive ParameterConvention :=
| Indirect_In | Indirect_In_Guaranteed | Indirect_Inout | Indirect_InoutAliasable
| Direct_Owned | Direct_Unowned | Direct_Guaranteed.

Definition conv_eqb (a b : ParameterConvention) : bool :=
  match a, b with
  | Indirect_In, Indirect_In | Indirect_In_Guaranteed, Indirect_In_Guaranteed
  | Indirect_Inout, Indirect_Inout | Indirect_InoutAliasable, Indirect_InoutAliasable
  | Direct_Owned, Direct_Owned | Direct_Unowned, Direct_Unowned
  | Direct_Guaranteed, Direct_Guaranteed => true
  | _, _ => false
  end.

(** A [SILFunctionType]: its ext-info (representation, [@noescape]), an
    abstract id for parameters/results/throws, and the callee convention. *)
Record SILFunctionType := mkFnTy {
  ftRepr : SILFunctionTypeRepresentation;
  ftNoEscape : bool;
  ftSig : nat;
  ftCalleeGuaranteed : bool
}.

Definition fnty_eqb (a b : SILFunctionType) : bool :=
  repr_eqb (ftRepr a) (ftRepr b) && Bool.eqb (ftNoEscape a) (ftNoEscape b)
  && Nat.eqb (ftSig a) (ftSig b)
  && Bool.eqb (ftCalleeGuaranteed a) (ftCalleeGuaranteed b).

(** [ExtInfo::hasContext]: only thick functions carry a context. *)
Definition hasContext (t : SILFunctionType) : bool := repr_eqb (ftRepr t) Thick.

(** [getWithExtInfo(getExtInfo().withNoEscape(false))] *)
Definition withEscaping (t : SILFunctionType) : SILFunctionType :=
  mkFnTy (ftRepr t) false (ftSig t) (ftCalleeGuaranteed t).

Inductive SILType :=
| TFunction (t : SILFunctionType)
| TAddress
| TObject.

Definition isAddress (t : SILType) : bool :=
  match t with TAddress => true | _ => false end.

(** Instruction kinds the pass inspects; anything else is [KOther]. *)
Inductive InstKind :=
| KFunctionRef (f : FName)
| KPartialApply (callee : ValueId) (args : list (ValueId * ParameterConvention))
| KThinToThickFunction (op : ValueId)
| KConvertFunction (op : ValueId)
| KConvertEscapeToNoEscape (op : ValueId)
| KMarkDependence (value base : ValueId)
| KLoad (addr : ValueId)
| KProjectBox (box : ValueId)
| KAllocBox
| KStore (src dest : ValueId)
| KStrongRetain (v : ValueId)
| KStrongRelease (v : ValueId)
| KIncrement (v : ValueId)
| KDecrement (v : ValueId)
| KApply (callee : ValueId) (args : list ValueId)
| KOther (ops : list ValueId)
| KTerminator (ops : list ValueId).

Record SILInstruction := mkInst {
  iid : ValueId;
  ikind : InstKind;
  ity : SILType
}.

Definition operands (k : InstKind) : list ValueId :=
  match k with
  | KFunctionRef _ | KAllocBox => []
  | KPartialApply c args => c :: map fst args
  | KThinToThickFunction o | KConvertFunction o | KConvertEscapeToNoEscape o
  | KLoad o | KProjectBox o | KStrongRetain o | KStrongRelease o
  | KIncrement o | KDecrement o => [o]
  | KMarkDependence v b => [v; b]
  | KStore s d => [s; d]
  | KApply c args => c :: args
  | KOther ops | KTerminator ops => ops
  end.

Definition isLoad (i : SILInstruction) : bool :=
  match ikind i with KLoad _ => true | _ => false end.
Definition isStore (i : SILInstruction) : bool :=
  match ikind i with KStore _ _ => true | _ => false end.
Definition isStrongRetain (i : SILInstruction) : bool :=
  match ikind i with KStrongRetain _ => true | _ => false end.
Definition isStrongRelease (i : SILInstruction) : bool :=
  match ikind i with KStrongRelease _ => true | _ => false end.
Definition isTerminator (i : SILInstruction) : bool :=
  match ikind i with KTerminator _ => true | _ => false end.

Definition storeDest (i : SILInstruction) : option ValueId :=
  match ikind i with KStore _ d => Some d | _ => None end.
Definition storeSrc (i : SILInstruction) : option ValueId :=
  match ikind i with KStore s _ => Some s | _ => None end.

Definition SILBasicBlock := list SILInstruction.

Record SILFunction := mkFn {
  fnRepresentation : SILFunctionTypeRepresentation;
  fnTransparent : bool;
  fnSerialized : bool;
  fnValidLinkageForFragileInline : bool;
  fnValidLinkageForFragileRef : bool;
  fnArgs : list (ValueId * SILType);
  fnBlocks : list SILBasicBlock;
  (** the body [SILModule::loadFunction] can deserialize for a declaration *)
  fnSerializedBody : list SILBasicBlock
}.

Definition SILModule := FName -> SILFunction.

Definition updateFn (m : SILModule) (g : FName) (f : SILFunction) : SILModule :=
  fun x => if Nat.eqb x g then f else m x.

Definition setBlocks (f : SILFunction) (bs : list SILBasicBlock) : SILFunction :=
  mkFn (fnRepresentation f) (fnTransparent f) (fnSerialized f)
       (fnValidLinkageForFragileInline f) (fnValidLinkageForFragileRef f)
       (fnArgs f) bs (fnSerializedBody f).

(** Modelled from the spec: [SILModule::loadFunction] (not part of this
    file) is a best-effort load of a declaration's body; it may leave the
    function empty. *)
Definition loadFunction (m : SILModule) (g : FName) : SILModule :=
  match fnBlocks (m g) with
  | [] => updateFn m g (setBlocks (m g) (fnSerializedBody (m g)))
  | _ :: _ => m
  end.

Definition allInsts (f : SILFunction) : list SILInstruction := concat (fnBlocks f).

(** The defining instruction of a value ([getDefiningInstruction], and the
    [dyn_cast]s on a [SILValue]). *)
Definition findInst (f : SILFunction) (v : ValueId) : option SILInstruction :=
  find (fun i => Nat.eqb (iid i) v) (allInsts f).

Definition valueType (f : SILFunction) (v : ValueId) : option SILType :=
  match findInst f v with
  | Some i => Some (ity i)
  | None => option_map snd (find (fun a => Nat.eqb (fst a) v) (fnArgs f))
  end.

(** [getUses()]: one entry per operand that uses [v], named by its user. *)
Definition users (f : SILFunction) (v : ValueId) : list SILInstruction :=
  flat_map (fun i => map (fun _ => i) (filter (Nat.eqb v) (operands (ikind i))))
           (allInsts f).

(** The block holding an instruction, and the iterator range from it to the
    end of that block. *)
Definition blockOf (f : SILFunction) (v : ValueId) : option SILBasicBlock :=
  find (fun b => existsb (fun i => Nat.eqb (iid i) v) b) (fnBlocks f).

Fixpoint dropUntil (v : ValueId) (b : SILBasicBlock) : SILBasicBlock :=
  match b with
  | [] => []
  | i :: rest => if Nat.eqb (iid i) v then i :: rest else dropUntil v rest
  end.

Definition eraseInst (f : SILFunction) (v : ValueId) : SILFunction :=
  setBlocks f (map (filter (fun i => negb (Nat.eqb (iid i) v))) (fnBlocks f)).


(** ** [getCalleeFunction] (lines 293-476) *)

(** Lines 323-342: scan forward from the alloc_box, in its block, for the
    first store into the project_box.  [SI] holds the last
    [dyn_cast<StoreInst>(I)] of the loop, as the C++ variable does.
    [None] is an early [return nullptr]; [Some SI] is the value of [SI]
    when the loop is left. *)
Fixpoint scanForStore (f : SILFunction) (LI PBI : ValueId)
    (is : list SILInstruction) (SI : option SILInstruction)
    : option (option SILInstruction) :=
  match is with
  | [] => Some SI
  | ins :: rest =>
      if Nat.eqb (iid ins) LI then None
      else
        match storeDest ins with
        | Some d =>
            if Nat.eqb d PBI then
              if forallb (fun u => Nat.eqb (iid u) (iid ins) || isLoad u) (users f PBI)
              then Some (Some ins) else None
            else scanForStore f LI PBI rest (Some ins)
        | None => scanForStore f LI PBI rest None
        end
  end.

(** Lines 306-346: a callee loaded from an [alloc_box]. *)
Definition seeThroughBoxLoad (f : SILFunction) (LI : SILInstruction) : option ValueId :=
  match ikind LI with
  | KLoad a =>
      match findInst f a with
      | Some PBI =>
          match ikind PBI with
          | KProjectBox b =>
              match findInst f b with
              | Some ABI =>
                  match ikind ABI with
                  | KAllocBox =>
                      if forallb (fun u => Nat.eqb (iid u) (iid PBI)
                                           || isStrongRetain u || isStrongRelease u)
                                 (users f (iid ABI))
                      then
                        match blockOf f (iid ABI) with
                        | Some blk =>
                            match scanForStore f (iid LI) (iid PBI)
                                    (dropUntil (iid ABI) blk) None with
                            | Some (Some SI) => storeSrc SI
                            | _ => None
                            end
                        | None => None
                        end
                      else None
                  | _ => None
                  end
              | None => None
              end
          | _ => None
          end
      | None => None
      end
  | _ => None
  end.

(** The [while (MD)] loop over [mark_dependence]; the SSA chain is no
    longer than the instruction list, which bounds the iteration. *)
Fixpoint skipMarkDependence (fuel : nat) (f : SILFunction) (v : ValueId) : ValueId :=
  match fuel with
  | 0 => v
  | S n =>
      match findInst f v with
      | Some i =>
          match ikind i with
          | KMarkDependence val _ => skipMarkDependence n f val
          | _ => v
          end
      | None => v
      end
  end.

(** The [skipFuncConvert] lambda (lines 354-408). *)
Definition skipFuncConvert (f : SILFunction) (v : ValueId) : ValueId :=
  match findInst f v with
  | Some i =>
      match ikind i with
      | KConvertFunction op =>
          match valueType f op, ity i with
          | Some (TFunction from), TFunction to =>
              if hasContext from then v
              else if fnty_eqb from (withEscaping to) then op else v
          | _, _ => v
          end
      | KMarkDependence val _ => skipMarkDependence (length (allInsts f)) f val
      | KConvertEscapeToNoEscape op =>
          match valueType f op, ity i with
          | Some (TFunction from), TFunction to =>
              if fnty_eqb from (withEscaping to) then op else v
          | _, _ => v
          end
      | _ => v
      end
  | None => v
  end.

(** The out-parameters of [getCalleeFunction]. *)
Record CalleeInfo := mkCalleeInfo {
  ciCallee : FName;
  ciIsThick : bool;
  ciCaptureArgs : list (ValueId * ParameterConvention);
  ciFullArgs : list ValueId;
  ciPartialApply : option SILInstruction
}.

(** Lines 297-433: from the apply's callee value back to a [function_ref].
    [collectPartiallyAppliedArguments] reads the convention of each
    captured argument from the callee's parameter info; here the
    [partial_apply] carries it with the argument. *)
Definition walkCalleeValue (f : SILFunction) (callee : ValueId) (args : list ValueId)
    : option CalleeInfo :=
  let start :=
    match findInst f callee with
    | Some LI => if isLoad LI then seeThroughBoxLoad f LI else Some callee
    | None => Some callee
    end in
  match start with
  | None => None
  | Some cv0 =>
      let cv1 := skipFuncConvert f cv0 in
      let '(cv2, thick, caps, pai) :=
        match findInst f cv1 with
        | Some i =>
            match ikind i with
            | KPartialApply c pargs => (c, true, pargs, Some i)
            | KThinToThickFunction o => (o, true, [], None)
            | _ => (cv1, false, [], None)
            end
        | None => (cv1, false, [], None)
        end in
      let cv3 := skipFuncConvert f cv2 in
      match findInst f cv3 with
      | Some fri =>
          match ikind fri with
          | KFunctionRef g => Some (mkCalleeInfo g thick caps (args ++ map fst caps) pai)
          | _ => None
          end
      | None => None
      end
  end.

(** [nullptr], a callee, or the [llvm_unreachable] of lines 466-471. *)
Inductive Resolution :=
| Unresolved
| Resolved (ci : CalleeInfo)
| FatalResilientIntoFragile.

Definition getCalleeFunction (m : SILModule) (F : FName) (AI : SILInstruction)
    : Resolution * SILModule :=
  match ikind AI with
  | KApply callee args =>
      match walkCalleeValue (m F) callee args with
      | None => (Unresolved, m)
      | Some ci =>
          let g := ciCallee ci in
          if isForeignRepresentation (fnRepresentation (m g)) then (Unresolved, m)
          else if negb (fnTransparent (m g)) then (Unresolved, m)
          else
            let m1 := match fnBlocks (m g) with
                      | [] => loadFunction m g
                      | _ :: _ => m
                      end in
            match fnBlocks (m1 g) with
            | [] => (Unresolved, m1)
            | _ :: _ =>
                if fnSerialized (m1 F) && negb (fnValidLinkageForFragileInline (m1 g)) then
                  if negb (fnValidLinkageForFragileRef (m1 g))
                  then (FatalResilientIntoFragile, m1)
                  else (Unresolved, m1)
                else (Resolved ci, m1)
            end
      end
  | _ => (Unresolved, m)
  end.

Definition applyCallee (AI : SILInstruction) : ValueId :=
  match ikind AI with KApply c _ => c | _ => 0 end.

(** ** [fixupReferenceCounts] (lines 51-75) *)

Fixpoint insertBeforeInBlock (at_ : ValueId) (n : SILInstruction) (b : SILBasicBlock)
    : SILBasicBlock :=
  match b with
  | [] => []
  | i :: rest => if Nat.eqb (iid i) at_ then n :: i :: rest
                 else i :: insertBeforeInBlock at_ n rest
  end.

Definition insertBefore (f : SILFunction) (at_ : ValueId) (n : SILInstruction) : SILFunction :=
  setBlocks f (map (insertBeforeInBlock at_ n) (fnBlocks f)).

(** Modelled from the spec: [createIncrementBefore] / [createDecrementBefore]
    (SILOptimizer/Utils/Local, not part of this file) insert one ownership
    increment / decrement of the value right before the given instruction;
    [fresh] is the id of the new instruction. *)
Definition createIncrementBefore (f : SILFunction) (v : ValueId) (I : SILInstruction)
    (fresh : nat) : SILFunction :=
  insertBefore f (iid I) (mkInst fresh (KIncrement v) TObject).

Definition createDecrementBefore (f : SILFunction) (v : ValueId) (I : SILInstruction)
    (fresh : nat) : SILFunction :=
  insertBefore f (iid I) (mkInst fresh (KDecrement v) TObject).

(** [!CaptureArg.first->getType().isAddress() && convention != Direct_Guaranteed
    && convention != Direct_Unowned]; a value's type is read in the function
    as it was before the fixup (inserted instructions define no captured value). *)
Definition captureNeedsCopy (types : ValueId -> option SILType)
    (c : ValueId * ParameterConvention) : bool :=
  negb (match types (fst c) with Some t => isAddress t | None => false end)
  && negb (conv_eqb (snd c) Direct_Guaranteed)
  && negb (conv_eqb (snd c) Direct_Unowned).

(** The loop over [CaptureArgs]; [None] is the failed
    [assert(... != Indirect_In && "Missing indirect copy")]. *)
Fixpoint fixupCaptures (types : ValueId -> option SILType) (f : SILFunction)
    (I : SILInstruction) (caps : list (ValueId * ParameterConvention)) (fresh : nat)
    : option (SILFunction * nat) :=
  match caps with
  | [] => Some (f, fresh)
  | c :: rest =>
      if captureNeedsCopy types c
      then fixupCaptures types (createIncrementBefore f (fst c) I fresh) I rest (S fresh)
      else if conv_eqb (snd c) Indirect_In then None
      else fixupCaptures types f I rest fresh
  end.

Definition fixupReferenceCounts (f : SILFunction) (I : SILInstruction)
    (CalleeValue : ValueId) (CaptureArgs : list (ValueId * ParameterConvention))
    (isCalleeGuaranteed : bool) (fresh : nat) : option SILFunction :=
  match fixupCaptures (valueType f) f I CaptureArgs fresh with
  | None => None
  | Some (f1, fresh1) =>
      Some (if isCalleeGuaranteed then f1
            else createDecrementBefore f1 CalleeValue I fresh1)
  end.

(** [PAI && PAI->getType().castTo<SILFunctionType>()->isCalleeGuaranteed()] *)
Definition IsCalleeGuaranteed (ci : CalleeInfo) : bool :=
  match ciPartialApply ci with
  | Some pai => match ity pai with
                | TFunction t => ftCalleeGuaranteed t
                | _ => false
                end
  | None => false
  end.

(** Lines 626-634 of [runOnFunctionRecursively]: the fixup of a thick call;
    [CalleeValue] is [InnerAI.getCallee()]. *)
Definition fixupThickCall (f : SILFunction) (AI : SILInstruction) (ci : CalleeInfo)
    (fresh : nat) : option SILFunction :=
  if ciIsThick ci then
    fixupReferenceCounts f AI (applyCallee AI) (ciCaptureArgs ci) (IsCalleeGuaranteed ci) fresh
  else Some f.

(** ** [cleanupLoadedCalleeValue] (lines 77-134) *)

(** Lines 88-99: up to one strong_release and the project_box. *)
Fixpoint scanABIUses (PBI : ValueId) (us : list SILInstruction)
    (SRI : option SILInstruction) : option (option SILInstruction) :=
  match us with
  | [] => Some SRI
  | u :: rest =>
      if (match SRI with None => true | Some _ => false end) && isStrongRelease u
      then scanABIUses PBI rest (Some u)
      else if Nat.eqb (iid u) PBI then scanABIUses PBI rest SRI
      else None
  end.

(** Lines 101-109: up to one store. *)
Fixpoint scanPBIUses (us : list SILInstruction) (SI : option SILInstruction)
    : option (option SILInstruction) :=
  match us with
  | [] => Some SI
  | u :: rest =>
      if (match SI with None => true | Some _ => false end) && isStore u
      then scanPBIUses rest (Some u)
      else None
  end.

(** Modelled from the spec: [SILBuilder::emitStrongReleaseAndFold] (not part
    of this file) releases the value at the position of the old release. *)
Definition emitStrongReleaseAndFold (f : SILFunction) (SRI : SILInstruction) (v : ValueId)
    (fresh : nat) : SILFunction :=
  insertBefore f (iid SRI) (mkInst fresh (KStrongRelease v) TObject).

(** The [cast<>]s of lines 78-79 hold for every load the caller passes
    (one [getCalleeFunction] accepted); other shapes return unchanged. *)
Definition cleanupLoadedCalleeValue (f : SILFunction) (CalleeValue : ValueId)
    (LI : SILInstruction) (fresh : nat) : option ValueId * SILFunction :=
  match ikind LI with
  | KLoad pb =>
      match findInst f pb with
      | Some PBI =>
          match ikind PBI with
          | KProjectBox ab =>
              match findInst f ab with
              | Some ABI =>
                  match ikind ABI with
                  | KAllocBox =>
                      match users f (iid LI) with
                      | _ :: _ => (None, f)
                      | [] =>
                          let f1 := eraseInst f (iid LI) in
                          match scanABIUses (iid PBI) (users f1 (iid ABI)) None with
                          | None => (None, f1)
                          | Some SRI =>
                              match scanPBIUses (users f1 (iid PBI)) None with
                              | None => (None, f1)
                              | Some SI =>
                                  let '(cv, f2) :=
                                    match SI with
                                    | Some si => (storeSrc si, eraseInst f1 (iid si))
                                    | None => (None, f1)
                                    end in
                                  let f3 :=
                                    match SRI with
                                    | Some sri =>
                                        eraseInst
                                          (match cv with
                                           | Some c => emitStrongReleaseAndFold f2 sri c fresh
                                           | None => f2
                                           end) (iid sri)
                                    | None => f2
                                    end in
                                  (cv, eraseInst (eraseInst f3 (iid PBI)) (iid ABI))
                              end
                          end
                      end
                  | _ => (None, f)
                  end
              | None => (None, f)
              end
          | _ => (None, f)
          end
      | None => (None, f)
      end
  | _ => (None, f)
  end.

(** ** Shapes named in the statements about callee resolution and cleanup *)

(** The load-from-box pattern that lines 306-346 accept: the loaded address is
    a [project_box] of an [alloc_box] whose only uses are that projection,
    retains and releases; scanning the alloc_box's block from the alloc_box,
    a store into the projection is met before the load, and every other use of
    the projection is a load. *)
Definition BoxedCalleePattern (f : SILFunction) (LI : SILInstruction) : Prop :=
  exists PBI ABI blk SI pre post,
    ikind LI = KLoad (iid PBI) /\ findInst f (iid PBI) = Some PBI /\
    ikind PBI = KProjectBox (iid ABI) /\ findInst f (iid ABI) = Some ABI /\
    ikind ABI = KAllocBox /\
    (forall u, In u (users f (iid ABI)) ->
       iid u = iid PBI \/ isStrongRetain u = true \/ isStrongRelease u = true) /\
    blockOf f (iid ABI) = Some blk /\ In blk (fnBlocks f) /\
    dropUntil (iid ABI) blk = pre ++ SI :: post /\
    storeDest SI = Some (iid PBI) /\
    (forall i, In i (pre ++ [SI]) -> iid i <> iid LI) /\
    (forall u, In u (users f (iid PBI)) -> iid u = iid SI \/ isLoad u = true).

(** Uses of the alloc_box that [cleanupLoadedCalleeValue] does not expect:
    a use that is neither the project_box nor a release, or two releases. *)
Definition UnexpectedABIUses (PBI : ValueId) (us : list SILInstruction) : Prop :=
  (exists u, In u us /\ iid u <> PBI /\ isStrongRelease u = false) \/
  (exists a b c r1 r2, us = a ++ r1 :: b ++ r2 :: c /\
     isStrongRelease r1 = true /\ isStrongRelease r2 = true /\
     iid r1 <> PBI /\ iid r2 <> PBI).

(** Uses of the project_box it does not expect: a use that is not a store,
    or two stores. *)
Definition UnexpectedPBIUses (us : list SILInstruction) : Prop :=
  (exists u, In u us /\ isStore u = false) \/
  (exists a b c s1 s2, us = a ++ s1 :: b ++ s2 :: c /\ isStore s1 = true /\ isStore s2 = true).

End CalleeResolution.

Module Driver.

Definition Loc := nat.

(** A function value used by an apply site, as [getCalleeFunction] sees it
    once the closure chain is walked: a [function_ref], a class or witness
    method (with the implementation the class hierarchy proves unique, if
    any), the [n]-th argument of the enclosing function, or a value the
    resolver cannot see through. *)
Inductive Callee :=
| CFunctionRef (g : FName)
| CClassMethod (target : option FName)
| CArgument (n : nat)
| COpaque.

(** An apply site carries its location, its callee value and its argument
    values (an argument that is not a function value is [COpaque]). *)
Inductive Instr :=
| IApply (loc : Loc) (callee : Callee) (args : list Callee)
| IFunctionRef (g : FName)
| IOther (tag : nat).

Definition Block := list Instr.

Record Func := mkFunc {
  fRepresentation : SILFunctionTypeRepresentation;
  fTransparent : bool;
  fThunk : bool;
  fDeserializedCanonical : bool;
  fSerialized : bool;
  fValidLinkageForFragileInline : bool;
  fValidLinkageForFragileRef : bool;
  fPossiblyUsedExternally : bool;
  (** references from vtables and witness tables, counted by [getRefCount] *)
  fTableRefs : nat;
  fBlocks : list Block;
  (** the body [SILModule::loadFunction] can deserialize for a declaration *)
  fSerializedBody : list Block
}.

Definition withBlocks (f : Func) (bs : list Block) : Func :=
  mkFunc (fRepresentation f) (fTransparent f) (fThunk f) (fDeserializedCanonical f)
         (fSerialized f) (fValidLinkageForFragileInline f)
         (fValidLinkageForFragileRef f) (fPossiblyUsedExternally f) (fTableRefs f)
         bs (fSerializedBody f).

Definition Functions := FName -> Func.

Definition updateF (fns : Functions) (g : FName) (f : Func) : Functions :=
  fun x => if Nat.eqb x g then f else fns x.

Definition setBody (fns : Functions) (g : FName) (bs : list Block) : Functions :=
  updateF fns g (withBlocks (fns g) bs).

(** Modelled from the spec: [SILModule::loadFunction], a best-effort load. *)
Definition loadFunction (fns : Functions) (g : FName) : Functions :=
  match fBlocks (fns g) with
  | [] => setBody fns g (fSerializedBody (fns g))
  | _ :: _ => fns
  end.

Inductive Diag :=
| circular_transparent (l : Loc)
| note_while_inlining (l : Loc).

(** The pass state: the functions, [FullyInlinedSet], the diagnostics
    emitted so far and the [NumMandatoryInlines] statistic. *)
Record State := mkState {
  stFns : Functions;
  stFullyInlined : list FName;
  stDiags : list Diag;
  stNumInlines : nat
}.

Definition withFns (st : State) (fns : Functions) : State :=
  mkState fns (stFullyInlined st) (stDiags st) (stNumInlines st).
Definition addDiag (st : State) (d : Diag) : State :=
  mkState (stFns st) (stFullyInlined st) (stDiags st ++ [d]) (stNumInlines st).
Definition addFullyInlined (st : State) (F : FName) : State :=
  mkState (stFns st) (F :: stFullyInlined st) (stDiags st) (stNumInlines st).
Definition countInline (st : State) : State :=
  mkState (stFns st) (stFullyInlined st) (stDiags st) (S (stNumInlines st)).

(** Modelled from the spec: [tryDevirtualizeApply] (Utils/Devirtualize, not
    part of this file) rewrites a dynamically dispatched call into a direct
    call when the target is provably unique. *)
Definition tryDevirtualizeApply (i : Instr) : option Instr :=
  match i with
  | IApply l (CClassMethod (Some g)) args => Some (IApply l (CFunctionRef g) args)
  | _ => None
  end.

(** [tryDevirtualizeApplyHelper] (lines 478-493). *)
Definition tryDevirtualizeApplyHelper (i : Instr) : Instr :=
  match tryDevirtualizeApply i with
  | Some n => n
  | None => i
  end.

Inductive Resolution :=
| Unresolved
| Resolved (g : FName)
| FatalResilientIntoFragile.

(** The eligibility half of [getCalleeFunction] (lines 435-475) on a
    callee that is a [function_ref]; the closure walk of lines 297-433 is
    the one of [CalleeResolution.walkCalleeValue]. *)
Definition getCalleeFunction (fns : Functions) (F : FName) (i : Instr)
    : Resolution * Functions :=
  match i with
  | IApply _ (CFunctionRef g) _ =>
      if isForeignRepresentation (fRepresentation (fns g)) then (Unresolved, fns)
      else if negb (fTransparent (fns g)) then (Unresolved, fns)
      else
        let fns1 := match fBlocks (fns g) with
                    | [] => loadFunction fns g
                    | _ :: _ => fns
                    end in
        match fBlocks (fns1 g) with
        | [] => (Unresolved, fns1)
        | _ :: _ =>
            if fSerialized (fns1 F) && negb (fValidLinkageForFragileInline (fns1 g)) then
              if negb (fValidLinkageForFragileRef (fns1 g))
              then (FatalResilientIntoFragile, fns1)
              else (Unresolved, fns1)
            else (Resolved g, fns1)
        end
  | _ => (Unresolved, fns)
  end.

(** Modelled from the spec: [SILInliner::inlineFunction] (not part of this
    file) deletes the apply, splits its block there and splices the callee's
    blocks in between: the callee's entry block continues the head of the
    split block, its other blocks follow, and the instructions after the
    apply form a block of their own (the return-to block) after them. It
    returns the new block list and the index of the last inlined block,
    where the scan resumes. *)
Definition spliceBody (pre : list Block) (bpre bsuf : Block) (post : list Block)
    (callee : list Block) : list Block * nat :=
  match callee with
  | [] => (pre ++ [bpre] ++ [bsuf] ++ post, length pre)
  | c0 :: crest => (pre ++ [bpre ++ c0] ++ crest ++ [bsuf] ++ post, length pre + length crest)
  end.

(** The inlined copy of the callee's body sees the apply's effective
    arguments ([FullArgs]) in place of its own arguments. *)
Definition substCallee (args : list Callee) (c : Callee) : Callee :=
  match c with
  | CArgument n => nth n args COpaque
  | _ => c
  end.

Definition substInstr (args : list Callee) (i : Instr) : Instr :=
  match i with
  | IApply l c xs => IApply l (substCallee args c) (map (substCallee args) xs)
  | _ => i
  end.

Definition inlineFunction (blocks : list Block) (bi j : nat) (args : list Callee)
    (callee : list Block) : list Block * nat :=
  let b := nth bi blocks [] in
  spliceBody (firstn bi blocks) (firstn j b) (skipn (S j) b) (skipn (S bi) blocks)
             (map (map (substInstr args)) callee).

Fixpoint replaceNth {A} (l : list A) (n : nat) (x : A) : list A :=
  match l, n with
  | [], _ => []
  | _ :: rest, 0 => x :: rest
  | y :: rest, S n' => y :: replaceNth rest n' x
  end.

Definition replaceInstr (blocks : list Block) (bi j : nat) (i : Instr) : list Block :=
  replaceNth blocks bi (replaceNth (nth bi blocks []) j i).

Definition applyLoc (i : Instr) : Loc :=
  match i with IApply l _ _ => l | _ => 0 end.

Definition applyArgs (i : Instr) : list Callee :=
  match i with IApply _ _ xs => xs | _ => [] end.

Definition isApply (i : Instr) : bool :=
  match i with IApply _ _ _ => true | _ => false end.

Inductive Result :=
| Done (ok : bool) (st : State)
| Fatal.

Section Collaborators.

(** [SILInliner::canInlineApplySite] and the [mergeBasicBlocks] utility
    (Utils/CFG), both outside this file. *)
Variable canInlineApplySite : Instr -> bool.
Variable mergeBasicBlocks : list Block -> list Block.

(** [runOnFunctionRecursively] (lines 509-666).  [scanInsts] is the inner
    loop over the instructions of block [bi] in reverse order ([j] of them
    are left to visit); [scanBlocks] the outer loop over the blocks with an
    index below [nb], in reverse order.  [None] means the fuel ran out. *)
Fixpoint runOnFunctionRecursively (fuel : nat) (F : FName) (AI : option Loc)
    (CurrentInliningSet : list FName) (st : State) : option Result :=
  match fuel with
  | 0 => None
  | S fuel' =>
      if existsb (Nat.eqb F) (stFullyInlined st) then Some (Done true st)
      else if existsb (Nat.eqb F) CurrentInliningSet then
        Some (Done false (match AI with
                          | Some l => addDiag st (circular_transparent l)
                          | None => st
                          end))
      else scanBlocks fuel' F AI (F :: CurrentInliningSet) st
                      (length (fBlocks (stFns st F)))
  end
with scanBlocks (fuel : nat) (F : FName) (AI : option Loc)
    (CurrentInliningSet : list FName) (st : State) (nb : nat) : option Result :=
  match fuel with
  | 0 => None
  | S fuel' =>
      match nb with
      | 0 => Some (Done true (addFullyInlined st F))
      | S nb' => scanInsts fuel' F AI CurrentInliningSet st nb'
                           (length (nth nb' (fBlocks (stFns st F)) []))
      end
  end
with scanInsts (fuel : nat) (F : FName) (AI : option Loc)
    (CurrentInliningSet : list FName) (st : State) (bi j : nat) : option Result :=
  match fuel with
  | 0 => None
  | S fuel' =>
      match j with
      | 0 => scanBlocks fuel' F AI CurrentInliningSet st bi
      | S j' =>
          let blocks := fBlocks (stFns st F) in
          let ins := nth j' (nth bi blocks []) (IOther 0) in
          if negb (isApply ins) then scanInsts fuel' F AI CurrentInliningSet st bi j'
          else
            let InnerAI := tryDevirtualizeApplyHelper ins in
            let st1 := withFns st (setBody (stFns st) F (replaceInstr blocks bi j' InnerAI)) in
            match getCalleeFunction (stFns st1) F InnerAI with
            | (Unresolved, fns2) =>
                scanInsts fuel' F AI CurrentInliningSet (withFns st1 fns2) bi j'
            | (FatalResilientIntoFragile, _) => Some Fatal
            | (Resolved CalleeFunction, fns2) =>
                match runOnFunctionRecursively fuel' CalleeFunction (Some (applyLoc InnerAI))
                        CurrentInliningSet (withFns st1 fns2) with
                | None => None
                | Some Fatal => Some Fatal
                | Some (Done false st3) =>
                    Some (Done false (match AI with
                                      | Some l => addDiag st3 (note_while_inlining l)
                                      | None => st3
                                      end))
                | Some (Done true st3) =>
                    if canInlineApplySite InnerAI then
                      let '(bs', tail) :=
                        inlineFunction (fBlocks (stFns st3 F)) bi j' (applyArgs InnerAI)
                                       (fBlocks (stFns st3 CalleeFunction)) in
                      let st4 := countInline (withFns st3 (setBody (stFns st3) F bs')) in
                      scanInsts fuel' F AI CurrentInliningSet st4 tail
                                (length (nth tail bs' []))
                    else scanInsts fuel' F AI CurrentInliningSet st3 bi j'
                end
            end
      end
  end.

Inductive PassResult :=
| PassDone (st : State)
| PassFatal.

(** The loop over the functions of the module in [MandatoryInlining::run]
    (lines 684-699). *)
Fixpoint processFunctions (fuel : nat) (fs : list FName) (st : State)
    : option PassResult :=
  match fs with
  | [] => Some (PassDone st)
  | F :: rest =>
      if fThunk (stFns st F) then processFunctions fuel rest st
      else if fDeserializedCanonical (stFns st F) then processFunctions fuel rest st
      else
        match runOnFunctionRecursively fuel F None [] st with
        | None => None
        | Some Fatal => Some PassFatal
        | Some (Done _ st1) =>
            processFunctions fuel rest
              (withFns st1 (setBody (stFns st1) F (mergeBasicBlocks (fBlocks (stFns st1 F)))))
        end
  end.

End Collaborators.

(** [SILFunction::getRefCount]: the [function_ref]s to [g] in the functions
    still in the module, plus table references. *)
Definition refsCallee (g : FName) (c : Callee) : nat :=
  match c with
  | CFunctionRef h => if Nat.eqb h g then 1 else 0
  | _ => 0
  end.

Definition refsInstr (g : FName) (i : Instr) : nat :=
  match i with
  | IApply _ c xs => refsCallee g c + fold_right plus 0 (map (refsCallee g) xs)
  | IFunctionRef h => if Nat.eqb h g then 1 else 0
  | IOther _ => 0
  end.

Definition getRefCount (fns : Functions) (live : list FName) (g : FName) : nat :=
  fTableRefs (fns g)
  + fold_right plus 0
      (map (fun h => fold_right plus 0 (map (refsInstr g) (concat (fBlocks (fns h))))) live).

(** Lines 710-733.  Modelled from the spec for [eraseFunction] (outside this
    file): an erased function leaves the module together with its body. *)
Fixpoint cleanupFunctions (fns : Functions) (kept todo : list FName) : list FName :=
  match todo with
  | [] => kept
  | F :: rest =>
      let f := fns F in
      if negb (Nat.eqb (getRefCount fns (kept ++ todo) F) 0)
      then cleanupFunctions fns (kept ++ [F]) rest
      else if negb (fTransparent f) then cleanupFunctions fns (kept ++ [F]) rest
      else if fPossiblyUsedExternally f then cleanupFunctions fns (kept ++ [F]) rest
      else if repr_eqb (fRepresentation f) ObjCMethod
      then cleanupFunctions fns (kept ++ [F]) rest
      else cleanupFunctions fns kept rest
  end.

Inductive PassOutcome :=
| Finished (st : State) (functions : list FName)
| Crashed.

Definition initialState (fns : Functions) : State := mkState fns [] [] 0.

(** [MandatoryInlining::run]: [DebugSerialization] is the option that
    turns the final cleanup off ([ShouldCleanup]). *)
Definition MandatoryInlining_run (canInlineApplySite : Instr -> bool)
    (mergeBasicBlocks : list Block -> list Block) (fuel : nat)
    (DebugSerialization : bool) (fns : Functions) (module : list FName)
    : option PassOutcome :=
  match processFunctions canInlineApplySite mergeBasicBlocks fuel module (initialState fns) with
  | None => None
  | Some PassFatal => Some Crashed
  | Some (PassDone st) =>
      Some (Finished st (if DebugSerialization then module
                         else cleanupFunctions (stFns st) [] module))
  end.

End Driver.

(** * Concrete functions used by the statements about single functions *)

Module CalleeExamples.
Import CalleeResolution.

(** A caller that builds a closure over one owned capture and applies it:
    [%0 = function_ref @7; %1 = ...; %2 = partial_apply %0(%1); apply %2()]. *)
Definition ex_thickTy := mkFnTy Thick false 0 false.
Definition ex_fr := mkInst 0 (KFunctionRef 7) (TFunction (mkFnTy Thin false 0 false)).
Definition ex_cap := mkInst 1 (KOther []) TObject.
Definition ex_pai := mkInst 2 (KPartialApply 0 [(1, Direct_Owned)]) (TFunction ex_thickTy).
Definition ex_ai := mkInst 3 (KApply 2 []) TObject.
Definition ex_term := mkInst 4 (KTerminator []) TObject.
Definition ex_caller := mkFn Thin false false true true [] [[ex_fr; ex_cap; ex_pai; ex_ai; ex_term]] [].

(** A caller that stores a function_ref into a local box and calls the
    function loaded back from it, as SILGen emits for a local closure
    variable; function 7 is a transparent callee with a body. *)
Definition thinTy := TFunction (mkFnTy Thin false 0 false).
Definition box_abi := mkInst 10 KAllocBox TObject.
Definition box_pbi := mkInst 11 (KProjectBox 10) TAddress.
Definition box_fr := mkInst 12 (KFunctionRef 7) thinTy.
Definition box_store := mkInst 13 (KStore 12 11) TObject.
Definition box_li := mkInst 14 (KLoad 11) thinTy.
Definition box_ai := mkInst 15 (KApply 14 []) TObject.
Definition box_rel := mkInst 16 (KStrongRelease 10) TObject.
Definition box_term := mkInst 17 (KTerminator []) TObject.
Definition box_caller := mkFn Thin false false true true []
  [[box_abi; box_pbi; box_fr; box_store; box_li; box_ai; box_rel; box_term]] [].
Definition ex_callee (inl ref : bool) := mkFn Thin true false inl ref [] [[box_term]] [].
Definition box_module : SILModule :=
  fun x => if Nat.eqb x 1 then box_caller else ex_callee true true.

(** A serialized caller applying function 7 directly; function 7 is
    transparent but its linkage is not valid for fragile inlining. *)
Definition frag_fr := mkInst 0 (KFunctionRef 7) thinTy.
Definition frag_ai := mkInst 1 (KApply 0 []) TObject.
Definition frag_caller := mkFn Thin false true true true [] [[frag_fr; frag_ai; box_term]] [].
Definition frag_module (ref : bool) : SILModule :=
  fun x => if Nat.eqb x 1 then frag_caller else ex_callee false ref.

End CalleeExamples.

(** * Concrete modules used by the statements about the driver *)

Module DriverExamples.
Import Driver.

(** A function with the common attributes: thin, not a thunk, not
    deserialized, not serialized, valid linkage, not used externally, no
    table references and no serialized body. *)
Definition plainFunc (transparent : bool) (bs : list Block) : Func :=
  mkFunc Thin transparent false false false true true false 0 bs [].

(** Two transparent functions [a] (0) and [b] (1) calling each other, at
    locations 10 and 20. *)
Definition fnsAB : Functions := fun x =>
  match x with
  | 0 => plainFunc true [[IApply 10 (CFunctionRef 1) []]]
  | 1 => plainFunc true [[IApply 20 (CFunctionRef 0) []]]
  | _ => plainFunc false []
  end.

(** A non-transparent function 0 calling function 1 at location 10, which
    calls function 2 at 11, which calls function 1 back at 12. *)
Definition fnsChain : Functions := fun x =>
  match x with
  | 0 => plainFunc false [[IApply 10 (CFunctionRef 1) []]]
  | 1 => plainFunc true [[IApply 11 (CFunctionRef 2) []]]
  | 2 => plainFunc true [[IApply 12 (CFunctionRef 1) []]]
  | _ => plainFunc false []
  end.

(** A non-transparent function 0 calling a transparent thunk 1, which calls
    the transparent function 2. *)
Definition fnsThunk : Functions := fun x =>
  match x with
  | 0 => plainFunc false [[IApply 20 (CFunctionRef 1) []]]
  | 1 => mkFunc Thin true true false false true true false 0 [[IApply 21 (CFunctionRef 2) []]] []
  | 2 => plainFunc true [[IOther 5]]
  | _ => plainFunc false []
  end.


(** A non-transparent function 0 calling the transparent function 1. *)
Definition fnsCall : Functions := fun x =>
  match x with
  | 0 => plainFunc false [[IOther 1; IApply 10 (CFunctionRef 1) []; IOther 2]]
  | 1 => plainFunc true [[IOther 3]]
  | _ => plainFunc false []
  end.


(** A transparent function 1; a thunk 0 and a deserialized-canonical
    function 2, both non-transparent, each calling 1. *)
Definition fnsSkip : Functions := fun x =>
  match x with
  | 0 => mkFunc Thin false true false false true true false 0 [[IApply 30 (CFunctionRef 1) []]] []
  | 1 => plainFunc true [[IOther 2]]
  | 2 => mkFunc Thin false false true false true true false 0 [[IApply 31 (CFunctionRef 1) []]] []
  | _ => plainFunc false []
  end.

End DriverExamples.

(** * Invariants of the driver

    Predicates on driver states used to state and prove the properties of
    [runOnFunctionRecursively] and [MandatoryInlining_run]. *)

Module DriverInvariants.
Import Driver.

(** Only bodies change: every other attribute of every function is kept. *)
Definition SameStatics (st st' : State) : Prop :=
  forall X, stFns st' X = withBlocks (stFns st X) (fBlocks (stFns st' X)).

(** A nonempty body never becomes empty. *)
Definition KeepsBodies (st st' : State) : Prop :=
  forall X, fBlocks (stFns st X) <> [] -> fBlocks (stFns st' X) <> [].

(** A declaration without a serialized body stays a declaration. *)
Definition EmptyStaysEmpty (st st' : State) : Prop :=
  forall X, fBlocks (stFns st X) = [] -> fSerializedBody (stFns st X) = [] ->
            fBlocks (stFns st' X) = [].

(** The functions a recursive call may rewrite: transparent callees that are
    neither on the inlining stack nor fully inlined yet, or not yet loaded. *)
Definition Touchable (st : State) (S : list FName) (X : FName) : Prop :=
  fTransparent (stFns st X) = true /\
  ((~ In X S /\ ~ In X (stFullyInlined st)) \/ fBlocks (stFns st X) = []).

Definition ChangesOnly (own : FName -> Prop) (S : list FName) (st st' : State) : Prop :=
  forall X, stFns st' X = stFns st X \/ own X \/ Touchable st S X.

(** Counters and the fully-inlined set only grow; diagnostics are appended. *)
Definition Grows (st st' : State) : Prop :=
  stNumInlines st <= stNumInlines st' /\
  incl (stFullyInlined st) (stFullyInlined st') /\
  exists ds, stDiags st' = stDiags st ++ ds.

(** The frame of a run of [runOnFunctionRecursively]. *)
Definition Step (own : FName -> Prop) (S : list FName) (st st' : State) : Prop :=
  SameStatics st st' /\ KeepsBodies st st' /\ EmptyStaysEmpty st st' /\
  ChangesOnly own S st st' /\ Grows st st'.

Definition RunOwn (F : FName) (S : list FName) (st : State) (X : FName) : Prop :=
  X = F /\ ~ In F S /\ ~ In F (stFullyInlined st).

(** A chain of transparent direct calls [F -> G1 -> ... -> Gn], each call
    site [l] present in the caller's body. *)
Fixpoint CallChain (fns : Functions) (F : FName) (path : list (Loc * FName)) : Prop :=
  match path with
  | [] => True
  | (l, G) :: rest =>
      fTransparent (fns G) = true /\
      (exists args, In (IApply l (CFunctionRef G) args) (concat (fBlocks (fns F)))) /\
      CallChain fns G rest
  end.

Definition optDiag (AI : option Loc) (d : Loc -> Diag) : list Diag :=
  match AI with Some l => [d l] | None => [] end.

(** What a failing run reports: a call chain closing on a function of the
    chain or of the inlining stack, one cycle diagnostic at the closing call
    and one note per enclosing call site, innermost first. *)
Definition CycleReport (st st' : State) (F : FName) (S : list FName) (AI : option Loc) : Prop :=
  exists path l G,
    CallChain (stFns st') F (path ++ [(l, G)]) /\ In G (map snd path ++ S) /\
    stDiags st' = stDiags st ++ circular_transparent l
                  :: map note_while_inlining (rev (map fst path)) ++ optDiag AI note_while_inlining.


(** The body [getCalleeFunction] sees: the loaded body, or the serialized one. *)
Definition effBlocks (f : Func) : list Block :=
  match fBlocks f with [] => fSerializedBody f | _ :: _ => fBlocks f end.




Definition GInv (st0 st : State) : Prop :=
  SameStatics st0 st /\ KeepsBodies st0 st /\ EmptyStaysEmpty st0 st.







End DriverInvariants.

(** * Properties of callee resolution, reference-count fixup and cleanup *)
Module CalleeCleanup.
Import CalleeResolution.

(** ** [cleanupCalleeValue] (lines 138-186) *)

Section Utilities.

(** [tryDeleteDeadClosure], [isInstructionTriviallyDead] and
    [recursivelyDeleteTriviallyDeadInstructions] (SILOptimizer/Utils, not
    part of this file) are parameters: the first reports whether it deleted
    the closure and returns the function it leaves. *)
Variable tryDeleteDeadClosure : SILFunction -> ValueId -> bool * SILFunction.
Variable isInstructionTriviallyDead : SILFunction -> ValueId -> bool.
Variable recursivelyDeleteTriviallyDeadInstructions : SILFunction -> ValueId -> SILFunction.

(** The kind of the instruction defining a value, if any ([dyn_cast] on a
    [SILValue]). *)
Definition definingKind (f : SILFunction) (v : ValueId) : option InstKind :=
  option_map ikind (findInst f v).

(** [fresh] is the id [cleanupLoadedCalleeValue] gives the release it emits. *)
Definition cleanupCalleeValue (f : SILFunction) (CalleeValue : ValueId) (fresh : nat)
    : SILFunction :=
  let '(cv0, f0) :=
    match findInst f CalleeValue with
    | Some LI => if isLoad LI then cleanupLoadedCalleeValue f CalleeValue LI fresh
                 else (Some CalleeValue, f)
    | None => (Some CalleeValue, f)
    end in
  match cv0 with
  | None => f0
  | Some cv =>
      let CalleeSource :=
        match definingKind f0 cv with
        | Some (KConvertFunction o) => o
        | Some (KConvertEscapeToNoEscape o) => o
        | _ => cv
        end in
      let closureCallee :=
        match definingKind f0 CalleeSource with
        | Some (KPartialApply c _) => Some c
        | Some (KThinToThickFunction o) => Some o
        | _ => None
        end in
      let next :=
        match closureCallee with
        | Some Callee =>
            let '(deleted, f1) := tryDeleteDeadClosure f0 CalleeSource in
            if deleted then inl (Callee, f1) else inr f1
        | None => inl (cv, f0)
        end in
      match next with
      | inr f1 => f1
      | inl (cv1, f1) =>
          match definingKind f1 cv1 with
          | Some (KConvertFunction _) =>
              if isInstructionTriviallyDead f1 cv1
              then recursivelyDeleteTriviallyDeadInstructions f1 cv1
              else f1
          | Some (KFunctionRef _) =>
              match users f1 cv1 with
              | [] => eraseInst f1 cv1
              | _ :: _ => f1
              end
          | _ => f1
          end
      end
  end.

(** ** [ClosureCleanup] (lines 190-267) *)

(** [SmallBlotSetVector]: the entries in insertion order; erasing an entry
    blots its slot ([None]) and a later insertion appends it again. *)
Definition BlotSetVector := list (option ValueId).

Definition blot_eqb (o : option ValueId) (x : ValueId) : bool :=
  match o with Some y => Nat.eqb y x | None => false end.

Definition bsv_insert (s : BlotSetVector) (x : ValueId) : BlotSetVector :=
  if existsb (fun o => blot_eqb o x) s then s else s ++ [Some x].

Definition bsv_erase (s : BlotSetVector) (x : ValueId) : BlotSetVector :=
  map (fun o => if blot_eqb o x then None else o) s.

(** The entries not blotted. *)
Definition liveIds (s : BlotSetVector) : list ValueId :=
  flat_map (fun o => match o with Some x => [x] | None => [] end) s.

Definition isFunctionTyped (f : SILFunction) (v : ValueId) : bool :=
  match valueType f v with Some (TFunction _) => true | _ => false end.

(** [recordDeadFunction]: forget the deleted instruction, then record the
    defining instruction of each operand of function type. *)
Definition recordDeadFunction (f : SILFunction) (deletedInst : SILInstruction)
    (deadFunctionVals : BlotSetVector) : BlotSetVector :=
  fold_left
    (fun s operandVal =>
       if isFunctionTyped f operandVal then
         match findInst f operandVal with
         | Some deadInst => bsv_insert s (iid deadInst)
         | None => s
         end
       else s)
    (operands (ikind deletedInst)) (bsv_erase deadFunctionVals (iid deletedInst)).

(** [dyn_cast<SingleValueInstruction>]: stores, the retain/release-style
    reference-count instructions and terminators define no single value. *)
Definition isSingleValue (k : InstKind) : bool :=
  match k with
  | KStore _ _ | KStrongRetain _ | KStrongRelease _ | KIncrement _ | KDecrement _
  | KTerminator _ => false
  | _ => true
  end.

Definition present (f : SILFunction) (v : ValueId) : bool :=
  match findInst f v with Some _ => true | None => false end.

(** [DeleteUpdateHandler::handleDeleteNotification] for every instruction
    of [before] that is gone in [after]. *)
Definition notifyDeleted (before after : SILFunction) (s : BlotSetVector) : BlotSetVector :=
  map (fun o => match o with
                | Some y => if present before y && negb (present after y) then None else o
                | None => None
                end) s.

(** The loop of [cleanupDeadClosures] from slot [k] on; the handler blots
    the slots of the instructions each cleanup deletes. *)
Fixpoint cleanupFrom (rem k : nat) (f : SILFunction) (s : BlotSetVector) (fresh : nat)
    : SILFunction * BlotSetVector :=
  match rem with
  | 0 => (f, s)
  | S rem' =>
      match nth k s None with
      | None => cleanupFrom rem' (S k) f s fresh
      | Some v =>
          match findInst f v with
          | Some SVI =>
              if isSingleValue (ikind SVI) then
                let f' := cleanupCalleeValue f v fresh in
                cleanupFrom rem' (S k) f' (notifyDeleted f f' s) (S fresh)
              else cleanupFrom rem' (S k) f s fresh
          | None => cleanupFrom rem' (S k) f s fresh
          end
      end
  end.

Definition cleanupDeadClosures (f : SILFunction) (deadFunctionVals : BlotSetVector) (fresh : nat)
    : SILFunction * BlotSetVector :=
  cleanupFrom (length deadFunctionVals) 0 f deadFunctionVals fresh.

End Utilities.

End CalleeCleanup.


Module ExtraExamples.
Import CalleeResolution CalleeExamples.

(** The closure example [ex_caller] as function 1 of a module where
    function 7 is a transparent callee with a body. *)
Definition pa_module : SILModule :=
  fun x => if Nat.eqb x 1 then ex_caller else ex_callee true true.

(** A closure over a closure: [%1 = thin_to_thick_function %0;
    %2 = thin_to_thick_function %1; apply %2()]. *)
Definition tt_fr := mkInst 0 (KFunctionRef 7) thinTy.
Definition tt_1 := mkInst 1 (KThinToThickFunction 0) (TFunction ex_thickTy).
Definition tt_2 := mkInst 2 (KThinToThickFunction 1) (TFunction ex_thickTy).
Definition tt_ai := mkInst 3 (KApply 2 []) TObject.
Definition tt_caller := mkFn Thin false false true true [] [[tt_fr; tt_1; tt_2; tt_ai; ex_term]] [].
Definition tt_module : SILModule :=
  fun x => if Nat.eqb x 1 then tt_caller else ex_callee true true.

(** A caller applying function 7 directly, where 7 is not transparent. *)
Definition opaque_module : SILModule :=
  fun x => if Nat.eqb x 1 then frag_caller else mkFn Thin false false true true [] [[box_term]] [].

(** The boxed example once its apply has been inlined away. *)
Definition box_inlined := eraseInst box_caller 15.

End ExtraExamples.


Module CalleeResolutionFacts.
Import CalleeResolution CalleeExamples.

Lemma loadFunction_spec m g X :
  loadFunction m g X = m X \/
  (fnBlocks (m X) = [] /\ loadFunction m g X = setBlocks (m X) (fnSerializedBody (m X))).
Proof.
  unfold loadFunction, updateFn.
  destruct (fnBlocks (m g)) eqn:E; [|auto].
  destruct (Nat.eqb_spec X g); subst; auto.
Qed.

Lemma getCalleeFunction_snd m F AI :
  snd (getCalleeFunction m F AI) = m \/
  exists g, snd (getCalleeFunction m F AI) = loadFunction m g.
Proof.
  unfold getCalleeFunction.
  destruct (ikind AI); try (left; reflexivity).
  destruct (walkCalleeValue _ _ _) as [ci|]; [|left; reflexivity].
  destruct (isForeignRepresentation _); [left; reflexivity|].
  destruct (negb _); [left; reflexivity|].
  destruct (fnBlocks (m (ciCallee ci))) eqn:E.
  - right; exists (ciCallee ci).
    destruct (fnBlocks (loadFunction m (ciCallee ci) (ciCallee ci))); [reflexivity|].
    destruct (_ && _); [destruct (negb _)|]; reflexivity.
  - left. rewrite E. destruct (_ && _); [destruct (negb _)|]; reflexivity.
Qed.

Lemma getCalleeFunction_effect m F AI X :
  snd (getCalleeFunction m F AI) X = m X \/
  (fnBlocks (m X) = [] /\
   snd (getCalleeFunction m F AI) X = setBlocks (m X) (fnSerializedBody (m X))).
Proof.
  destruct (getCalleeFunction_snd m F AI) as [-> | [g ->]]; [auto|].
  apply loadFunction_spec.
Qed.

Lemma findInst_nonempty f v i : findInst f v = Some i -> fnBlocks f <> [].
Proof.
  unfold findInst, allInsts. intros H E. rewrite E in H. discriminate.
Qed.

Lemma findInst_iid f v i : findInst f v = Some i -> iid i = v.
Proof.
  unfold findInst. intros H. apply find_some in H. destruct H as [_ H].
  apply Nat.eqb_eq in H. exact H.
Qed.

Lemma findInst_In f v i : findInst f v = Some i -> In i (allInsts f).
Proof. unfold findInst. intros H. apply find_some in H. tauto. Qed.

Lemma dropUntil_suffix v b : exists pre, b = pre ++ dropUntil v b.
Proof.
  induction b as [|i rest [pre IH]]; simpl.
  - exists []; reflexivity.
  - destruct (Nat.eqb (iid i) v).
    + exists []; reflexivity.
    + exists (i :: pre). simpl. rewrite <- IH. reflexivity.
Qed.

Lemma scanForStore_found f LI PBI is SI0 s :
  is <> [] ->
  (forall pre t, is = pre ++ [t] -> isStore t = false) ->
  scanForStore f LI PBI is SI0 = Some (Some s) ->
  exists pre post, is = pre ++ s :: post /\ storeDest s = Some PBI /\
    (forall i, In i (pre ++ [s]) -> iid i <> LI) /\
    (forall u, In u (users f PBI) -> iid u = iid s \/ isLoad u = true).
Proof.
  revert SI0.
  induction is as [|ins rest IH]; intros SI0 Hne Hlast H; [congruence|].
  simpl in H.
  destruct (Nat.eqb_spec (iid ins) LI) as [|Hneq]; [discriminate|].
  destruct (storeDest ins) as [d|] eqn:Ed.
  - destruct (Nat.eqb_spec d PBI) as [->|Hd].
    + destruct (forallb _ _) eqn:Ef; [|discriminate].
      injection H as <-.
      exists [], rest. split; [reflexivity|]. split; [exact Ed|]. split.
      * intros i [<-|[]]; exact Hneq.
      * intros u Hu. rewrite forallb_forall in Ef. specialize (Ef u Hu).
        apply orb_true_iff in Ef as [E|E]; [left; apply Nat.eqb_eq; exact E|right; exact E].
    + destruct rest as [|r rest'].
      * exfalso. specialize (Hlast [] ins eq_refl).
        unfold isStore, storeDest in *. destruct (ikind ins); congruence.
      * destruct (IH (Some ins)) as (pre & post & E & Hs & Hpre & Hu);
          [congruence| |exact H|].
        { intros pre t Et. apply (Hlast (ins :: pre)). rewrite Et. reflexivity. }
        exists (ins :: pre), post. split; [rewrite E; reflexivity|].
        split; [exact Hs|]. split; [|exact Hu].
        intros i [<-|Hi]; [exact Hneq|]. apply Hpre; exact Hi.
  - destruct rest as [|r rest'].
    + discriminate.
    + destruct (IH None) as (pre & post & E & Hs & Hpre & Hu);
        [congruence| |exact H|].
      { intros pre t Et. apply (Hlast (ins :: pre)). rewrite Et. reflexivity. }
      exists (ins :: pre), post. split; [rewrite E; reflexivity|].
      split; [exact Hs|]. split; [|exact Hu].
      intros i [<-|Hi]; [exact Hneq|]. apply Hpre; exact Hi.
Qed.

Lemma seeThroughBoxLoad_pattern f LI v :
  (forall b, In b (fnBlocks f) -> exists pre t, b = pre ++ [t] /\ isTerminator t = true) ->
  seeThroughBoxLoad f LI = Some v -> BoxedCalleePattern f LI.
Proof.
  intros Hwf H. unfold seeThroughBoxLoad in H.
  destruct (ikind LI) eqn:ELI; try discriminate.
  destruct (findInst f addr) as [PBI|] eqn:EP; [|discriminate].
  destruct (ikind PBI) eqn:EPk; try discriminate.
  destruct (findInst f box) as [ABI|] eqn:EA; [|discriminate].
  destruct (ikind ABI) eqn:EAk; try discriminate.
  destruct (forallb _ _) eqn:Ef; [|discriminate].
  destruct (blockOf f (iid ABI)) as [blk|] eqn:Eb; [|discriminate].
  destruct (scanForStore _ _ _ _ _) as [[SI|]|] eqn:Es; try discriminate.
  pose proof (findInst_iid _ _ _ EP) as IP. pose proof (findInst_iid _ _ _ EA) as IA.
  subst addr box.
  assert (Hblk : In blk (fnBlocks f)).
  { unfold blockOf in Eb. apply find_some in Eb. tauto. }
  destruct (dropUntil_suffix (iid ABI) blk) as [bpre Ebpre].
  destruct (scanForStore_found f (iid LI) (iid PBI) (dropUntil (iid ABI) blk) None SI)
    as (pre & post & E & Hs & Hpre & Hu); [| |exact Es|].
  - intros E. rewrite E in Es. discriminate.
  - intros pre t Et. destruct (Hwf blk Hblk) as (pre' & t' & Eb' & Ht').
    rewrite Ebpre, Et, app_assoc in Eb'. apply app_inj_tail in Eb' as [_ <-].
    unfold isTerminator, isStore in *. destruct (ikind t); congruence.
  - exists PBI, ABI, blk, SI, pre, post.
    repeat split; auto.
    intros u Hu0. rewrite forallb_forall in Ef. specialize (Ef u Hu0).
    repeat rewrite orb_true_iff in Ef. destruct Ef as [[E1|E1]|E1]; auto.
    left. apply Nat.eqb_eq. exact E1.
Qed.

(** C5: when the callee operand of an apply is a load, [getCalleeFunction]
    resolves the call only if the load sits in the accepted box pattern
    ([BoxedCalleePattern]: only the expected alloc_box and project_box uses,
    and a store into the box in the alloc_box's block before the load);
    whatever the outcome, the caller's body is left as it was. *)
Theorem getCalleeFunction_boxed_callee m F AI callee args LI
  (HAI : ikind AI = KApply callee args)
  (HLI : findInst (m F) callee = Some LI) (Hload : isLoad LI = true)
  (Hwf : forall b, In b (fnBlocks (m F)) ->
         exists pre t, b = pre ++ [t] /\ isTerminator t = true) :
  (forall ci, fst (getCalleeFunction m F AI) = Resolved ci -> BoxedCalleePattern (m F) LI)
  /\ fnBlocks (snd (getCalleeFunction m F AI) F) = fnBlocks (m F).
Proof.
  split.
  - intros ci H. unfold getCalleeFunction in H. rewrite HAI in H.
    destruct (walkCalleeValue (m F) callee args) eqn:Ew; [|discriminate].
    unfold walkCalleeValue in Ew. rewrite HLI, Hload in Ew.
    destruct (seeThroughBoxLoad (m F) LI) eqn:Es; [|discriminate].
    eapply seeThroughBoxLoad_pattern; eauto.
  - destruct (getCalleeFunction_effect m F AI F) as [-> | [E _]]; [reflexivity|].
    exfalso. exact (findInst_nonempty _ _ _ HLI E).
Qed.

(** C8: [getCalleeFunction] changes no function that has a body (in
    particular not a caller holding the apply). Either it leaves the module
    as it is, or the apply's callee value resolves through
    [walkCalleeValue] to a non-foreign transparent function [g] whose body
    is empty, and the one change is that [g] receives its serialized body
    (the best-effort [loadFunction]). *)
Theorem getCalleeFunction_frame m F AI :
  (forall X, fnBlocks (m X) <> [] -> snd (getCalleeFunction m F AI) X = m X) /\
  (snd (getCalleeFunction m F AI) = m \/
   exists callee args ci,
     ikind AI = KApply callee args /\ walkCalleeValue (m F) callee args = Some ci /\
     isForeignRepresentation (fnRepresentation (m (ciCallee ci))) = false /\
     fnTransparent (m (ciCallee ci)) = true /\
     fnBlocks (m (ciCallee ci)) = [] /\
     snd (getCalleeFunction m F AI) =
       updateFn m (ciCallee ci) (setBlocks (m (ciCallee ci)) (fnSerializedBody (m (ciCallee ci))))).
Proof.
  split.
  - intros X HX. destruct (getCalleeFunction_effect m F AI X) as [E | [E _]];
      [exact E | contradiction].
  - unfold getCalleeFunction.
    destruct (ikind AI) as [| | | | | | | | | | | | | |callee args| |] eqn:Ek; try (left; reflexivity).
    destruct (walkCalleeValue (m F) callee args) as [ci|] eqn:Ew; [|left; reflexivity].
    destruct (isForeignRepresentation (fnRepresentation (m (ciCallee ci)))) eqn:E1; [left; reflexivity|].
    destruct (fnTransparent (m (ciCallee ci))) eqn:E2; [|left; reflexivity]. cbn [negb].
    destruct (fnBlocks (m (ciCallee ci))) as [|b0 bs0] eqn:Eb.
    + right. exists callee, args, ci. repeat split; try assumption.
      unfold loadFunction. rewrite Eb.
      match goal with |- snd (match ?x with _ => _ end) = _ => destruct x end; [reflexivity|].
      destruct (_ && _); [destruct (negb _)|]; reflexivity.
    + left. rewrite Eb. destruct (_ && _); [destruct (negb _)|]; reflexivity.
Qed.

Lemma loadFunction_self m g :
  fnBlocks (m g) = [] -> loadFunction m g g = setBlocks (m g) (fnSerializedBody (m g)).
Proof. intros E. unfold loadFunction, updateFn. rewrite E, Nat.eqb_refl. reflexivity. Qed.

Lemma loadFunction_other m g X : X <> g -> loadFunction m g X = m X.
Proof.
  intros H. unfold loadFunction, updateFn. destruct (fnBlocks (m g)); [|reflexivity].
  destruct (Nat.eqb_spec X g); [contradiction|reflexivity].
Qed.

(** C6: for a serialized caller and a resolved, transparent, non-foreign
    callee with a body (or a body to load) but without linkage valid for
    fragile inlining: if the callee's linkage is valid for a fragile
    reference, resolution fails and the caller is unchanged; otherwise the
    outcome is the fatal error. *)
Theorem getCalleeFunction_fragile_caller m F AI callee args ci
  (HAI : ikind AI = KApply callee args)
  (Hw : walkCalleeValue (m F) callee args = Some ci)
  (HF : fnBlocks (m F) <> [])
  (Hfor : isForeignRepresentation (fnRepresentation (m (ciCallee ci))) = false)
  (Htr : fnTransparent (m (ciCallee ci)) = true)
  (Hbody : fnBlocks (m (ciCallee ci)) <> [] \/ fnSerializedBody (m (ciCallee ci)) <> [])
  (Hser : fnSerialized (m F) = true)
  (Hinl : fnValidLinkageForFragileInline (m (ciCallee ci)) = false) :
  (fnValidLinkageForFragileRef (m (ciCallee ci)) = true ->
     fst (getCalleeFunction m F AI) = Unresolved /\ snd (getCalleeFunction m F AI) F = m F) /\
  (fnValidLinkageForFragileRef (m (ciCallee ci)) = false ->
     fst (getCalleeFunction m F AI) = FatalResilientIntoFragile).
Proof.
  unfold getCalleeFunction. rewrite HAI, Hw, Hfor, Htr. simpl.
  set (g := ciCallee ci) in *.
  destruct (fnBlocks (m g)) as [|b bs] eqn:Eb.
  - destruct Hbody as [Hb|Hb]; [contradiction|].
    assert (HFg : F <> g) by (intros ->; contradiction).
    rewrite (loadFunction_self m g Eb). simpl.
    rewrite (loadFunction_other m g F HFg), Hser, Hinl. simpl.
    destruct (fnSerializedBody (m g)) eqn:Es; [contradiction|].
    split; intros Hr; rewrite Hr; simpl; [|reflexivity].
    split; [reflexivity|]. apply loadFunction_other; exact HFg.
  - rewrite Eb, Hser, Hinl. simpl.
    split; intros Hr; rewrite Hr; simpl; [split|]; reflexivity.
Qed.

Lemma scanABIUses_bad PBI us SRI u :
  In u us -> iid u <> PBI -> isStrongRelease u = false -> scanABIUses PBI us SRI = None.
Proof.
  revert SRI. induction us as [|x rest IH]; intros SRI Hin Hid Hr; [destruct Hin|].
  simpl. destruct Hin as [->|Hin].
  - rewrite Hr, andb_false_r. destruct (Nat.eqb_spec (iid u) PBI); [contradiction|reflexivity].
  - destruct (_ && _); [apply IH; auto|].
    destruct (Nat.eqb (iid x) PBI); [apply IH; auto|reflexivity].
Qed.

Lemma scanABIUses_second PBI us x r :
  In r us -> iid r <> PBI -> scanABIUses PBI us (Some x) = None.
Proof.
  induction us as [|y rest IH]; intros Hin Hid; [destruct Hin|].
  simpl. destruct Hin as [->|Hin].
  - destruct (Nat.eqb_spec (iid r) PBI); [contradiction|reflexivity].
  - destruct (Nat.eqb (iid y) PBI); [apply IH; auto|reflexivity].
Qed.

Lemma scanABIUses_two PBI a b c r1 r2 SRI :
  isStrongRelease r1 = true -> iid r1 <> PBI -> iid r2 <> PBI ->
  scanABIUses PBI (a ++ r1 :: b ++ r2 :: c) SRI = None.
Proof.
  intros Hr1 H1 H2. revert SRI. induction a as [|y a IH]; intros SRI; simpl.
  - rewrite Hr1, andb_true_r. destruct SRI as [x|].
    + destruct (Nat.eqb_spec (iid r1) PBI); [contradiction|reflexivity].
    + apply (scanABIUses_second PBI _ r1 r2); [apply in_or_app; right; left|]; auto.
  - destruct SRI as [x|]; simpl.
    + destruct (Nat.eqb (iid y) PBI); [|reflexivity].
      apply (scanABIUses_second PBI _ x r1); [apply in_or_app; right; left|]; auto.
    + destruct (isStrongRelease y).
      * apply (scanABIUses_second PBI _ y r1); [apply in_or_app; right; left|]; auto.
      * destruct (Nat.eqb (iid y) PBI); [apply IH|reflexivity].
Qed.

Lemma scanABIUses_unexpected PBI us :
  UnexpectedABIUses PBI us -> scanABIUses PBI us None = None.
Proof.
  intros [(u & Hin & Hid & Hr) | (a & b & c & r1 & r2 & -> & Hr1 & _ & H1 & H2)].
  - eapply scanABIUses_bad; eauto.
  - apply scanABIUses_two; auto.
Qed.

Lemma scanPBIUses_second us x : us <> [] -> scanPBIUses us (Some x) = None.
Proof. destruct us; [congruence|reflexivity]. Qed.

Lemma scanPBIUses_unexpected us : UnexpectedPBIUses us -> scanPBIUses us None = None.
Proof.
  intros [(u & Hin & Hs) | (a & b & c & s1 & s2 & -> & Hs1 & _)].
  - generalize (@None SILInstruction) as SI.
    induction us as [|y rest IH]; intros SI; [destruct Hin|]. simpl.
    destruct Hin as [<-|Hin].
    + rewrite Hs, andb_false_r. reflexivity.
    + destruct (_ && _); [apply IH; exact Hin|reflexivity].
  - generalize (@None SILInstruction) as SI.
    induction a as [|y a IH]; intros SI; simpl.
    + rewrite Hs1, andb_true_r. destruct SI; [reflexivity|].
      apply scanPBIUses_second. destruct b; discriminate.
    + destruct SI as [x|]; [reflexivity|]. simpl.
      destruct (isStore y); [|reflexivity].
      apply scanPBIUses_second. destruct a; discriminate.
Qed.

(** C10: if the load of the callee still has uses, the cleanup changes
    nothing; if it has none, the load is erased first, and when the alloc_box
    or the project_box then shows unexpected uses the cleanup returns with only
    the load erased. *)
Theorem cleanupLoadedCalleeValue_not_atomic f CalleeValue LI fresh PBI ABI
  (HLI : ikind LI = KLoad (iid PBI)) (HP : findInst f (iid PBI) = Some PBI)
  (HPk : ikind PBI = KProjectBox (iid ABI)) (HA : findInst f (iid ABI) = Some ABI)
  (HAk : ikind ABI = KAllocBox) :
  (users f (iid LI) <> [] ->
     cleanupLoadedCalleeValue f CalleeValue LI fresh = (None, f)) /\
  (users f (iid LI) = [] ->
     UnexpectedABIUses (iid PBI) (users (eraseInst f (iid LI)) (iid ABI)) \/
     UnexpectedPBIUses (users (eraseInst f (iid LI)) (iid PBI)) ->
     cleanupLoadedCalleeValue f CalleeValue LI fresh = (None, eraseInst f (iid LI))).
Proof.
  unfold cleanupLoadedCalleeValue. rewrite HLI, HP, HPk, HA, HAk.
  split.
  - intros Hu. destruct (users f (iid LI)); [contradiction|reflexivity].
  - intros Hu [Hab|Hpb]; rewrite Hu.
    + rewrite (scanABIUses_unexpected _ _ Hab). reflexivity.
    + destruct (scanABIUses _ _ _); [|reflexivity].
      rewrite (scanPBIUses_unexpected _ Hpb). reflexivity.
Qed.

Lemma insertBeforeInBlock_absent v n b :
  (forall i, In i b -> iid i <> v) -> insertBeforeInBlock v n b = b.
Proof.
  induction b as [|i rest IH]; intros H; [reflexivity|]. simpl.
  destruct (Nat.eqb_spec (iid i) v) as [E|_]; [exfalso; apply (H i); [left|]; auto|].
  rewrite IH; [reflexivity|]. intros j Hj; apply H; right; exact Hj.
Qed.

Lemma insertBeforeInBlock_at n pre AI post :
  (forall i, In i pre -> iid i <> iid AI) ->
  insertBeforeInBlock (iid AI) n (pre ++ AI :: post) = pre ++ n :: AI :: post.
Proof.
  induction pre as [|i rest IH]; intros H; simpl.
  - rewrite Nat.eqb_refl. reflexivity.
  - destruct (Nat.eqb_spec (iid i) (iid AI)) as [E|_];
      [exfalso; apply (H i); [left|]; auto|].
    rewrite IH; [reflexivity|]. intros j Hj; apply H; right; exact Hj.
Qed.

Lemma map_insertBeforeInBlock_absent v n bs :
  (forall i, In i (concat bs) -> iid i <> v) -> map (insertBeforeInBlock v n) bs = bs.
Proof.
  induction bs as [|b rest IH]; intros H; [reflexivity|]. simpl.
  rewrite insertBeforeInBlock_absent, IH; [reflexivity| |];
    intros i Hi; apply H; simpl; apply in_or_app; auto.
Qed.

Lemma insertBefore_shape f n AI bs1 pre post bs2 :
  fnBlocks f = bs1 ++ (pre ++ AI :: post) :: bs2 ->
  (forall i, In i (concat bs1 ++ pre ++ post ++ concat bs2) -> iid i <> iid AI) ->
  insertBefore f (iid AI) n = setBlocks f (bs1 ++ (pre ++ n :: AI :: post) :: bs2).
Proof.
  intros Hf H. unfold insertBefore. rewrite Hf, map_app. simpl.
  rewrite !map_insertBeforeInBlock_absent, insertBeforeInBlock_at; [reflexivity| | |];
    intros i Hi; apply H; rewrite !in_app_iff; tauto.
Qed.

Lemma fixupCaptures_shape types f AI caps fresh bs1 pre post bs2 :
  fnBlocks f = bs1 ++ (pre ++ AI :: post) :: bs2 ->
  (forall i, In i (concat bs1 ++ pre ++ post ++ concat bs2) -> iid i <> iid AI) ->
  iid AI < fresh ->
  (forall c, In c caps -> captureNeedsCopy types c = false -> snd c <> Indirect_In) ->
  exists added fresh',
    fixupCaptures types f AI caps fresh =
      Some (setBlocks f (bs1 ++ (pre ++ added ++ AI :: post) :: bs2), fresh') /\
    map ikind added = map (fun c => KIncrement (fst c)) (filter (captureNeedsCopy types) caps) /\
    (forall i, In i added -> iid AI < iid i) /\ iid AI < fresh'.
Proof.
  revert f fresh pre. induction caps as [|c rest IH]; intros f fresh pre Hf Hu Hfr Ha; simpl.
  - exists [], fresh. split; [|split; [reflexivity|split; [intros i []|exact Hfr]]].
    simpl. rewrite <- Hf. destruct f; reflexivity.
  - destruct (captureNeedsCopy types c) eqn:Ec.
    + unfold createIncrementBefore.
      set (n := mkInst fresh (KIncrement (fst c)) TObject).
      destruct (IH (setBlocks f (bs1 ++ (pre ++ n :: AI :: post) :: bs2)) (S fresh) (pre ++ [n]))
        as (added & fresh' & E & Hk & Hadd & Hfr').
      * simpl. rewrite <- app_assoc. reflexivity.
      * intros i Hi. rewrite !in_app_iff in Hi. simpl in Hi.
        destruct Hi as [H1|[[H1|[<-|[]]]|H1]]; try (apply Hu; rewrite !in_app_iff; tauto).
        simpl. lia.
      * lia.
      * intros c' Hc'. apply Ha. right. exact Hc'.
      * exists (n :: added), fresh'.
        split; [|split; [simpl; rewrite Hk; reflexivity|split; [|exact Hfr']]].
        2: { intros i [<-|Hi]; [simpl; lia|apply Hadd; exact Hi]. }
        rewrite (insertBefore_shape f n AI bs1 pre post bs2 Hf Hu), E.
        rewrite <- app_assoc. reflexivity.
    + destruct (conv_eqb (snd c) Indirect_In) eqn:Ei.
      * exfalso. apply (Ha c (or_introl eq_refl) Ec).
        destruct (snd c); simpl in Ei; congruence.
      * apply IH; auto. intros c' Hc'. apply Ha. right. exact Hc'.
Qed.

(** C2 (amended): for a thick call whose apply [AI] sits at a unique id in
    the caller, the fixup inserts, directly before the apply and in this
    order, one increment per capture that is not an address and whose
    convention is neither guaranteed nor unowned, then one decrement of the
    callee value unless the partial_apply is callee-guaranteed; nothing is
    inserted after the apply.  A thin_to_thick closure (no partial_apply)
    counts as not guaranteed. *)
Theorem fixupThickCall_placement f AI ci fresh bs1 pre post bs2
  (Hthick : ciIsThick ci = true)
  (Hf : fnBlocks f = bs1 ++ (pre ++ AI :: post) :: bs2)
  (Huniq : forall i, In i (concat bs1 ++ pre ++ post ++ concat bs2) -> iid i <> iid AI)
  (Hfresh : iid AI < fresh)
  (Hassert : forall c, In c (ciCaptureArgs ci) ->
             captureNeedsCopy (valueType f) c = false -> snd c <> Indirect_In) :
  exists added,
    fixupThickCall f AI ci fresh = Some (setBlocks f (bs1 ++ (pre ++ added ++ AI :: post) :: bs2)) /\
    map ikind added =
      map (fun c => KIncrement (fst c)) (filter (captureNeedsCopy (valueType f)) (ciCaptureArgs ci))
      ++ (if IsCalleeGuaranteed ci then [] else [KDecrement (applyCallee AI)]).
Proof.
  unfold fixupThickCall, fixupReferenceCounts. rewrite Hthick.
  destruct (fixupCaptures_shape (valueType f) f AI (ciCaptureArgs ci) fresh bs1 pre post bs2
              Hf Huniq Hfresh Hassert) as (added & fresh' & -> & Hk & Hadd & Hfr').
  destruct (IsCalleeGuaranteed ci).
  - exists added. rewrite app_nil_r. split; [reflexivity|exact Hk].
  - set (n := mkInst fresh' (KDecrement (applyCallee AI)) TObject).
    exists (added ++ [n]). split.
    + unfold createDecrementBefore.
      rewrite (insertBefore_shape _ n AI bs1 (pre ++ added) post bs2).
      * rewrite <- !app_assoc. reflexivity.
      * simpl. rewrite <- app_assoc. reflexivity.
      * intros i Hi. rewrite !in_app_iff in Hi.
        destruct Hi as [H1|[[H1|H1]|H1]];
          [apply Huniq; rewrite !in_app_iff; tauto
          |apply Huniq; rewrite !in_app_iff; tauto
          |specialize (Hadd i H1); lia
          |apply Huniq; rewrite !in_app_iff; tauto].
    + rewrite map_app, Hk. reflexivity.
Qed.

(** C2 counterexample: for an owned capture, the decrement of the closure is
    inserted before the apply (after the increment), not after it: the
    instruction following the apply is still the terminator. *)
Lemma fixupThickCall_decrement_precedes_apply :
  exists ci, walkCalleeValue ex_caller 2 [] = Some ci /\
    fixupThickCall ex_caller ex_ai ci 5 =
      Some (setBlocks ex_caller
              [[ex_fr; ex_cap; ex_pai;
                mkInst 5 (KIncrement 1) TObject; mkInst 6 (KDecrement 2) TObject;
                ex_ai; ex_term]]).
Proof. eexists. split; reflexivity. Qed.

Lemma fixupThickCall_placement_witness :
  exists added,
    fixupThickCall ex_caller ex_ai (mkCalleeInfo 7 true [(1, Direct_Owned)] [1] (Some ex_pai)) 5 =
      Some (setBlocks ex_caller [[ex_fr; ex_cap; ex_pai] ++ added ++ [ex_ai; ex_term]]) /\
    map ikind added = [KIncrement 1; KDecrement 2].
Proof.
  apply (fixupThickCall_placement ex_caller ex_ai
           (mkCalleeInfo 7 true [(1, Direct_Owned)] [1] (Some ex_pai)) 5
           [] [ex_fr; ex_cap; ex_pai] [ex_term] []).
  - reflexivity.
  - reflexivity.
  - simpl. intros i Hi. repeat destruct Hi as [<-|Hi]; simpl; [lia|lia|lia|lia|destruct Hi].
  - simpl. lia.
  - simpl. intros c [<-|[]] H. discriminate H.
Defined.

(** The boxed example is resolved to the function stored into the box. *)
Lemma box_resolves : fst (getCalleeFunction box_module 1 box_ai) =
  Resolved (mkCalleeInfo 7 false [] [] None).
Proof. reflexivity. Qed.

Lemma getCalleeFunction_boxed_callee_witness :
  (forall ci, fst (getCalleeFunction box_module 1 box_ai) = Resolved ci ->
              BoxedCalleePattern (box_module 1) box_li)
  /\ fnBlocks (snd (getCalleeFunction box_module 1 box_ai) 1) = fnBlocks (box_module 1).
Proof.
  apply (getCalleeFunction_boxed_callee box_module 1 box_ai 14 [] box_li).
  - reflexivity.
  - reflexivity.
  - reflexivity.
  - simpl. intros b [<-|[]].
    exists [box_abi; box_pbi; box_fr; box_store; box_li; box_ai; box_rel], box_term.
    split; reflexivity.
Defined.

Lemma cleanupLoadedCalleeValue_not_atomic_witness :
  (users box_caller 14 <> [] -> cleanupLoadedCalleeValue box_caller 14 box_li 20 = (None, box_caller)) /\
  (users box_caller 14 = [] ->
     UnexpectedABIUses 11 (users (eraseInst box_caller 14) 10) \/
     UnexpectedPBIUses (users (eraseInst box_caller 14) 11) ->
     cleanupLoadedCalleeValue box_caller 14 box_li 20 = (None, eraseInst box_caller 14)).
Proof.
  apply (cleanupLoadedCalleeValue_not_atomic box_caller 14 box_li 20 box_pbi box_abi);
    reflexivity.
Defined.

Lemma getCalleeFunction_fragile_caller_witness :
  (fnValidLinkageForFragileRef (frag_module true 7) = true ->
     fst (getCalleeFunction (frag_module true) 1 frag_ai) = Unresolved /\
     snd (getCalleeFunction (frag_module true) 1 frag_ai) 1 = frag_module true 1) /\
  (fnValidLinkageForFragileRef (frag_module true 7) = false ->
     fst (getCalleeFunction (frag_module true) 1 frag_ai) = FatalResilientIntoFragile).
Proof.
  apply (getCalleeFunction_fragile_caller (frag_module true) 1 frag_ai 0 []
           (mkCalleeInfo 7 false [] [] None));
    try reflexivity; simpl; [discriminate|left; discriminate].
Defined.

End CalleeResolutionFacts.

(** * Properties of the driver *)

Module DriverFacts.
Import Driver DriverExamples DriverInvariants.

Lemma withBlocks_eta f : withBlocks f (fBlocks f) = f.
Proof. destruct f; reflexivity. Qed.

Lemma withBlocks_withBlocks f a b : withBlocks (withBlocks f a) b = withBlocks f b.
Proof. reflexivity. Qed.

Lemma setBody_at fns F bs X :
  setBody fns F bs X = if Nat.eqb X F then withBlocks (fns F) bs else fns X.
Proof. reflexivity. Qed.

Lemma Step_refl own S st : Step own S st st.
Proof.
  split; [intros X; rewrite withBlocks_eta; reflexivity|].
  split; [intros X H; exact H|].
  split; [intros X H _; exact H|].
  split; [intros X; left; reflexivity|].
  split; [lia|]. split; [intros x Hx; exact Hx|].
  exists []. rewrite app_nil_r. reflexivity.
Qed.

Lemma Step_trans own S st st1 st2 :
  Step own S st st1 -> Step own S st1 st2 -> Step own S st st2.
Proof.
  intros (Hs1 & Hk1 & He1 & Hc1 & Hn1 & Hf1 & ds1 & Hd1)
         (Hs2 & Hk2 & He2 & Hc2 & Hn2 & Hf2 & ds2 & Hd2).
  repeat split.
  - intros X. rewrite Hs2, (Hs1 X). reflexivity.
  - intros X H. apply Hk2, Hk1, H.
  - intros X H1 H2. apply He2; [apply He1; auto|].
    rewrite (Hs1 X). simpl. exact H2.
  - intros X. destruct (Hc1 X) as [E1|[O|T]]; [|right; left; exact O|right; right; exact T].
    destruct (Hc2 X) as [E2|[O|T]].
    + left. rewrite E2. exact E1.
    + right; left; exact O.
    + right; right. destruct T as [Ht Hr].
      rewrite E1 in Ht. split; [exact Ht|].
      destruct Hr as [[Hs Hf]|He].
      * left. split; [exact Hs|]. intros Hin. apply Hf, Hf1, Hin.
      * right. rewrite E1 in He. exact He.
  - lia.
  - intros x Hx. apply Hf2, Hf1, Hx.
  - exists (ds1 ++ ds2). rewrite Hd2, Hd1, app_assoc. reflexivity.
Qed.

Lemma Step_weaken (own own' : FName -> Prop) S S' st st' :
  (forall X, own X -> own' X \/ Touchable st S' X) ->
  (forall X, Touchable st S X -> Touchable st S' X) ->
  Step own S st st' -> Step own' S' st st'.
Proof.
  intros Ho Ht (Hs & Hk & He & Hc & Hg). repeat (split; [assumption|]). split; [|exact Hg].
  intros X. destruct (Hc X) as [E|[O|T]]; [left; exact E| |right; right; apply Ht, T].
  destruct (Ho X O); [right; left|right; right]; assumption.
Qed.

(** ** Frames of state updates *)

Lemma Step_setBody own S st F bs :
  own F ->
  (fBlocks (stFns st F) <> [] -> bs <> []) ->
  (fBlocks (stFns st F) = [] -> fSerializedBody (stFns st F) = [] -> bs = []) ->
  Step own S st (withFns st (setBody (stFns st) F bs)).
Proof.
  intros Ho Hk He. unfold Step, SameStatics, KeepsBodies, EmptyStaysEmpty, ChangesOnly, Grows.
  simpl. split; [|split; [|split; [|split]]].
  - intros X. rewrite !setBody_at. destruct (Nat.eqb_spec X F) as [->|]; [reflexivity|].
    rewrite withBlocks_eta. reflexivity.
  - intros X. rewrite setBody_at. destruct (Nat.eqb_spec X F) as [->|]; auto.
  - intros X. rewrite setBody_at. destruct (Nat.eqb_spec X F) as [->|]; auto.
  - intros X. rewrite setBody_at. destruct (Nat.eqb_spec X F) as [->|]; auto.
  - split; [lia|]. split; [intros x Hx; exact Hx|].
    exists []. rewrite app_nil_r. reflexivity.
Qed.

Lemma Step_addDiag own S st st' d : Step own S st st' -> Step own S st (addDiag st' d).
Proof.
  intros (Hs & Hk & He & Hc & Hn & Hf & ds & Hd).
  split; [exact Hs|]. split; [exact Hk|]. split; [exact He|]. split; [exact Hc|].
  split; [exact Hn|]. split; [exact Hf|].
  exists (ds ++ [d]). simpl. rewrite Hd, app_assoc. reflexivity.
Qed.

Lemma Step_countInline own S st st' : Step own S st st' -> Step own S st (countInline st').
Proof.
  intros (Hs & Hk & He & Hc & Hn & Hf & Hd).
  split; [exact Hs|]. split; [exact Hk|]. split; [exact He|]. split; [exact Hc|].
  unfold Grows; simpl. split; [lia|]. split; assumption.
Qed.

Lemma Step_addFullyInlined own S st st' F :
  Step own S st st' -> Step own S st (addFullyInlined st' F).
Proof.
  intros (Hs & Hk & He & Hc & Hn & Hf & Hd).
  split; [exact Hs|]. split; [exact Hk|]. split; [exact He|]. split; [exact Hc|].
  unfold Grows; simpl. split; [exact Hn|]. split; [|exact Hd]. intros x Hx. right. apply Hf, Hx.
Qed.

Lemma length_replaceNth {A} (l : list A) n x : length (replaceNth l n x) = length l.
Proof.
  revert n. induction l as [|y l IH]; intros [|n]; simpl; auto.
Qed.

Lemma nth_replaceNth_same {A} (l : list A) n x d :
  n < length l -> nth n (replaceNth l n x) d = x.
Proof.
  revert n. induction l as [|y l IH]; intros [|n] H; simpl in *; try lia; auto.
  apply IH. lia.
Qed.

Lemma nth_replaceNth_other {A} (l : list A) n m x d :
  m <> n -> nth m (replaceNth l n x) d = nth m l d.
Proof.
  revert n m. induction l as [|y l IH]; intros [|n] [|m] H; simpl; try lia; auto.
Qed.

Lemma replaceInstr_nonempty blocks bi j i :
  blocks <> [] -> replaceInstr blocks bi j i <> [].
Proof.
  unfold replaceInstr. intros H E. apply H.
  apply length_zero_iff_nil. rewrite <- (length_replaceNth blocks bi (replaceNth (nth bi blocks []) j i)), E.
  reflexivity.
Qed.

Lemma replaceInstr_nil bi j i : replaceInstr [] bi j i = [].
Proof. reflexivity. Qed.

Lemma spliceBody_nonempty pre bpre bsuf post callee :
  fst (spliceBody pre bpre bsuf post callee) <> [].
Proof.
  unfold spliceBody. destruct callee as [|c0 crest]; simpl;
    intros E; apply (f_equal (@length Block)) in E; rewrite !length_app in E; simpl in E; lia.
Qed.

Lemma inlineFunction_nonempty blocks bi j args callee : fst (inlineFunction blocks bi j args callee) <> [].
Proof. apply spliceBody_nonempty. Qed.

Lemma nth_apply_in_range blocks bi j :
  isApply (nth j (nth bi blocks []) (IOther 0)) = true ->
  bi < length blocks /\ j < length (nth bi blocks []).
Proof.
  intros H. split.
  - destruct (Nat.lt_ge_cases bi (length blocks)) as [|Hge]; [assumption|].
    rewrite (nth_overflow blocks [] Hge) in H. destruct j; discriminate.
  - destruct (Nat.lt_ge_cases j (length (nth bi blocks []))) as [|Hge]; [assumption|].
    rewrite (nth_overflow _ (IOther 0) Hge) in H. discriminate.
Qed.

Lemma nth_replaceInstr_same blocks bi j i :
  bi < length blocks -> j < length (nth bi blocks []) ->
  nth j (nth bi (replaceInstr blocks bi j i) []) (IOther 0) = i.
Proof.
  intros H1 H2. unfold replaceInstr. rewrite nth_replaceNth_same; [|exact H1].
  apply nth_replaceNth_same. exact H2.
Qed.

Lemma In_replaceInstr blocks bi j i :
  bi < length blocks -> j < length (nth bi blocks []) ->
  In i (concat (replaceInstr blocks bi j i)).
Proof.
  intros H1 H2. apply in_concat. exists (nth bi (replaceInstr blocks bi j i) []). split.
  - apply nth_In. unfold replaceInstr. rewrite length_replaceNth. exact H1.
  - rewrite <- (nth_replaceInstr_same blocks bi j i H1 H2) at 1. apply nth_In.
    unfold replaceInstr. rewrite nth_replaceNth_same, length_replaceNth; assumption.
Qed.

(** ** Callee resolution in the driver *)

Lemma gcf_effect fns F i X :
  snd (getCalleeFunction fns F i) X = fns X \/
  (fBlocks (fns X) = [] /\ fTransparent (fns X) = true /\
   snd (getCalleeFunction fns F i) X = withBlocks (fns X) (fSerializedBody (fns X))).
Proof.
  unfold getCalleeFunction.
  destruct i as [l [g| | |] args| |]; try (left; reflexivity).
  destruct (isForeignRepresentation _); [left; reflexivity|].
  destruct (fTransparent (fns g)) eqn:Et; [|left; reflexivity]. simpl.
  set (fns1 := match fBlocks (fns g) with [] => loadFunction fns g | _ :: _ => fns end).
  assert (Hl : fns1 X = fns X \/
    (fBlocks (fns X) = [] /\ fTransparent (fns X) = true /\
     fns1 X = withBlocks (fns X) (fSerializedBody (fns X)))).
  { subst fns1. destruct (fBlocks (fns g)) eqn:Eb; [|left; reflexivity].
    unfold loadFunction. rewrite Eb. rewrite setBody_at.
    destruct (Nat.eqb_spec X g) as [->|]; [right; auto|left; reflexivity]. }
  clearbody fns1.
  destruct (fBlocks (fns1 g)); [exact Hl|].
  destruct (_ && _); [destruct (negb _)|]; exact Hl.
Qed.

Lemma gcf_resolved fns F i g :
  fst (getCalleeFunction fns F i) = Resolved g ->
  (exists l args, i = IApply l (CFunctionRef g) args) /\ fTransparent (fns g) = true /\
  fBlocks (snd (getCalleeFunction fns F i) g) <> [].
Proof.
  unfold getCalleeFunction.
  destruct i as [l [h| | |] args| |]; try discriminate.
  destruct (isForeignRepresentation _); [discriminate|].
  destruct (fTransparent (fns h)) eqn:Et; [|discriminate]. simpl.
  set (fns1 := match fBlocks (fns h) with [] => loadFunction fns h | _ :: _ => fns end).
  clearbody fns1.
  match goal with |- context [match fBlocks ?x with _ => _ end] => destruct (fBlocks x) eqn:Eb end;
    [discriminate|].
  destruct (_ && _); [destruct (negb _); discriminate|].
  intros E. injection E as <-. split; [exists l, args; reflexivity|]. split; [exact Et|].
  simpl. rewrite Eb. discriminate.
Qed.

Lemma Step_gcf own S st F i :
  Step own S st (withFns st (snd (getCalleeFunction (stFns st) F i))).
Proof.
  unfold Step, SameStatics, KeepsBodies, EmptyStaysEmpty, ChangesOnly, Grows. simpl.
  split; [|split; [|split; [|split]]].
  - intros X. destruct (gcf_effect (stFns st) F i X) as [E|(_ & _ & E)]; rewrite E;
      [rewrite withBlocks_eta|]; reflexivity.
  - intros X H. destruct (gcf_effect (stFns st) F i X) as [E|(E0 & _ & E)];
      [rewrite E; exact H|contradiction].
  - intros X H1 H2. destruct (gcf_effect (stFns st) F i X) as [E|(_ & _ & E)]; rewrite E;
      [exact H1|exact H2].
  - intros X. destruct (gcf_effect (stFns st) F i X) as [E|(E0 & Et & E)]; [left; exact E|].
    right; right. split; [exact Et|right; exact E0].
  - split; [lia|]. split; [intros x Hx; exact Hx|].
    exists []. rewrite app_nil_r. reflexivity.
Qed.

Lemma existsb_eqb_false F l : existsb (Nat.eqb F) l = false -> ~ In F l.
Proof.
  intros H Hin. assert (existsb (Nat.eqb F) l = true); [|congruence].
  apply existsb_exists. exists F. split; [exact Hin|apply Nat.eqb_refl].
Qed.

Lemma existsb_eqb_true F l : existsb (Nat.eqb F) l = true -> In F l.
Proof.
  intros H. apply existsb_exists in H as (x & Hx & E). apply Nat.eqb_eq in E. subst. exact Hx.
Qed.

Lemma Step_keeps own S st st' X :
  Step own S st st' -> fBlocks (stFns st X) <> [] -> fBlocks (stFns st' X) <> [].
Proof. intros (_ & Hk & _). apply Hk. Qed.

Lemma Step_transparent own S st st' X :
  Step own S st st' -> fTransparent (stFns st' X) = fTransparent (stFns st X).
Proof. intros (Hs & _). rewrite (Hs X). reflexivity. Qed.

Section Steps.
Variable ci : Instr -> bool.

Lemma Step_run : forall fuel,
  (forall F AI S st b st', runOnFunctionRecursively ci fuel F AI S st = Some (Done b st') ->
     Step (RunOwn F S st) S st st') /\
  (forall F AI S st nb b st', scanBlocks ci fuel F AI S st nb = Some (Done b st') ->
     Step (fun X => X = F) S st st') /\
  (forall F AI S st bi j b st', scanInsts ci fuel F AI S st bi j = Some (Done b st') ->
     Step (fun X => X = F) S st st').
Proof.
  induction fuel as [|n IH]; [repeat split; intros; discriminate|].
  destruct IH as (IHr & IHb & IHi).
  split; [|split].
  - intros F AI S st b st' H. simpl in H.
    destruct (existsb (Nat.eqb F) (stFullyInlined st)) eqn:Ef.
    { injection H as _ <-. apply Step_refl. }
    destruct (existsb (Nat.eqb F) S) eqn:Es.
    { injection H as _ <-. destruct AI; [apply Step_addDiag|]; apply Step_refl. }
    apply IHb in H.
    eapply Step_weaken; [| |exact H].
    + intros X ->. left. split; [reflexivity|].
      split; apply existsb_eqb_false; assumption.
    + intros X (Ht & [[Hs Hf]|He]); split; auto.
      left; split; auto. intros Hin; apply Hs; right; exact Hin.
  - intros F AI S st nb b st' H. simpl in H. destruct nb as [|nb'].
    + injection H as _ <-. apply Step_addFullyInlined, Step_refl.
    + eapply IHi; exact H.
  - intros F AI S st bi j b st' H. simpl in H. destruct j as [|j'].
    + eapply IHb; exact H.
    + destruct (isApply (nth j' (nth bi (fBlocks (stFns st F)) []) (IOther 0))) eqn:Eapp;
        simpl in H; [|eapply IHi; exact H].
      destruct (nth_apply_in_range _ _ _ Eapp) as [Hbi Hj].
      assert (HFne : fBlocks (stFns st F) <> []) by (intros E; rewrite E in Hbi; simpl in Hbi; lia).
      set (InnerAI := tryDevirtualizeApplyHelper _) in H.
      set (st1 := withFns st (setBody (stFns st) F
                    (replaceInstr (fBlocks (stFns st F)) bi j' InnerAI))) in H.
      assert (S1 : Step (fun X => X = F) S st st1).
      { apply Step_setBody; [reflexivity| |].
        - intros _. apply replaceInstr_nonempty. exact HFne.
        - intros E _. rewrite E. reflexivity. }
      change (setBody (stFns st) F (replaceInstr (fBlocks (stFns st F)) bi j' InnerAI))
        with (stFns st1) in H.
      destruct (getCalleeFunction (stFns st1) F InnerAI) as [[|g|] fns2] eqn:Eg.
      * assert (S2 : Step (fun X => X = F) S st (withFns st1 fns2)).
        { eapply Step_trans; [exact S1|].
          replace fns2 with (snd (getCalleeFunction (stFns st1) F InnerAI)) by (rewrite Eg; reflexivity).
          apply Step_gcf. }
        eapply Step_trans; [exact S2|]. eapply IHi; exact H.
      * assert (S2 : Step (fun X => X = F) S st (withFns st1 fns2)).
        { eapply Step_trans; [exact S1|].
          replace fns2 with (snd (getCalleeFunction (stFns st1) F InnerAI)) by (rewrite Eg; reflexivity).
          apply Step_gcf. }
        assert (Hgt : fTransparent (stFns (withFns st1 fns2) g) = true).
        { destruct (gcf_resolved (stFns st1) F InnerAI g) as (_ & Ht & _); [rewrite Eg; reflexivity|].
          rewrite (Step_transparent _ _ _ _ g S2), <- (Step_transparent _ _ _ _ g S1). exact Ht. }
        destruct (runOnFunctionRecursively ci n g (Some (applyLoc InnerAI)) S (withFns st1 fns2))
          as [[b3 st3|]|] eqn:Er; try discriminate.
        assert (S3 : Step (fun X => X = F) S st st3).
        { eapply Step_trans; [exact S2|].
          eapply Step_weaken; [| |exact (IHr _ _ _ _ _ _ Er)].
          - intros X (-> & Hs & Hf). right. split; [exact Hgt|]. left; split; assumption.
          - intros X HX; exact HX. }
        destruct b3.
        -- destruct (ci InnerAI) eqn:Eci.
           ++ destruct (inlineFunction (fBlocks (stFns st3 F)) bi j' (applyArgs InnerAI) (fBlocks (stFns st3 g)))
                as [bs' tail] eqn:Ei.
              eapply Step_trans; [|eapply IHi; exact H].
              apply Step_countInline. eapply Step_trans; [exact S3|].
              apply Step_setBody; [reflexivity| |].
              ** intros _. pose proof (inlineFunction_nonempty (fBlocks (stFns st3 F)) bi j' (applyArgs InnerAI)
                                         (fBlocks (stFns st3 g))) as Hn.
                 rewrite Ei in Hn. exact Hn.
              ** intros E. exfalso. exact (Step_keeps _ _ _ _ F S3 HFne E).
           ++ eapply Step_trans; [exact S3|]. eapply IHi; exact H.
        -- injection H as _ <-. destruct AI; [apply Step_addDiag|]; exact S3.
      * discriminate.
Qed.
End Steps.

Lemma processFunctions_skipped_frame ci merge fuel : forall fs st st' X,
  processFunctions ci merge fuel fs st = Some (PassDone st') ->
  fThunk (stFns st X) || fDeserializedCanonical (stFns st X) = true ->
  fTransparent (stFns st X) = false ->
  stFns st' X = stFns st X.
Proof.
  induction fs as [|F rest IH]; intros st st' X H Hk Ht; simpl in H.
  - injection H as <-. reflexivity.
  - destruct (fThunk (stFns st F)) eqn:E1; [eapply IH; eauto|].
    destruct (fDeserializedCanonical (stFns st F)) eqn:E2; [eapply IH; eauto|].
    destruct (runOnFunctionRecursively ci fuel F None [] st) as [[b st1|]|] eqn:Er; try discriminate.
    pose proof (proj1 (Step_run ci fuel) _ _ _ _ _ _ Er) as HS.
    assert (HXF : X <> F) by (intros ->; rewrite E1, E2 in Hk; discriminate).
    assert (E : stFns st1 X = stFns st X).
    { destruct HS as (_ & _ & _ & Hc & _). destruct (Hc X) as [E|[(E & _)|(Ht' & _)]].
      - exact E.
      - contradiction.
      - congruence. }
    set (st2 := withFns st1 (setBody (stFns st1) F (merge (fBlocks (stFns st1 F))))) in H.
    assert (E' : stFns st2 X = stFns st X).
    { simpl. unfold setBody, updateF. destruct (Nat.eqb_spec X F); [congruence|exact E]. }
    rewrite <- E'. eapply IH; [exact H| rewrite E'; exact Hk | rewrite E'; exact Ht].
Qed.

Section Chains.
Variable ci : Instr -> bool.

Lemma Done_true_diags : forall fuel,
  (forall F AI S st st', runOnFunctionRecursively ci fuel F AI S st = Some (Done true st') ->
     stDiags st' = stDiags st) /\
  (forall F AI S st nb st', scanBlocks ci fuel F AI S st nb = Some (Done true st') ->
     stDiags st' = stDiags st) /\
  (forall F AI S st bi j st', scanInsts ci fuel F AI S st bi j = Some (Done true st') ->
     stDiags st' = stDiags st).
Proof.
  induction fuel as [|n IH]; [repeat split; intros; discriminate|].
  destruct IH as (IHr & IHb & IHi).
  split; [|split].
  - intros F AI S st st' H. simpl in H.
    destruct (existsb (Nat.eqb F) (stFullyInlined st)); [injection H as <-; reflexivity|].
    destruct (existsb (Nat.eqb F) S); [discriminate|]. eapply IHb; exact H.
  - intros F AI S st nb st' H. simpl in H. destruct nb as [|nb'].
    + injection H as <-. reflexivity.
    + eapply IHi; exact H.
  - intros F AI S st bi j st' H. simpl in H. destruct j as [|j'].
    + eapply IHb; exact H.
    + destruct (isApply (nth j' (nth bi (fBlocks (stFns st F)) []) (IOther 0)));
        simpl in H; [|eapply IHi; exact H].
      set (InnerAI := tryDevirtualizeApplyHelper _) in H.
      set (st1 := withFns st (setBody (stFns st) F
                    (replaceInstr (fBlocks (stFns st F)) bi j' InnerAI))) in H.
      change (setBody (stFns st) F (replaceInstr (fBlocks (stFns st F)) bi j' InnerAI))
        with (stFns st1) in H.
      destruct (getCalleeFunction (stFns st1) F InnerAI) as [[|g|] fns2] eqn:Eg;
        [exact (IHi _ _ _ _ _ _ _ H)| |discriminate].
      destruct (runOnFunctionRecursively ci n g (Some (applyLoc InnerAI)) S (withFns st1 fns2))
        as [[[|] st3|]|] eqn:Er; try discriminate.
      pose proof (IHr _ _ _ _ _ Er) as E3. simpl in E3.
      destruct (ci InnerAI).
      * destruct (inlineFunction (fBlocks (stFns st3 F)) bi j' (applyArgs InnerAI) (fBlocks (stFns st3 g)))
          as [bs' tail].
        rewrite (IHi _ _ _ _ _ _ _ H). simpl. exact E3.
      * rewrite (IHi _ _ _ _ _ _ _ H). exact E3.
Qed.
Lemma applyLoc_IApply l c args : applyLoc (IApply l c args) = l.
Proof. reflexivity. Qed.

Lemma chain_run : forall fuel,
  (forall F AI S st st', runOnFunctionRecursively ci fuel F AI S st = Some (Done false st') ->
     (In F S /\ stDiags st' = stDiags st ++ optDiag AI circular_transparent /\ stFns st' = stFns st) \/
     (~ In F S /\ CycleReport st st' F (F :: S) AI)) /\
  (forall F AI S st nb st', scanBlocks ci fuel F AI S st nb = Some (Done false st') ->
     In F S -> CycleReport st st' F S AI) /\
  (forall F AI S st bi j st', scanInsts ci fuel F AI S st bi j = Some (Done false st') ->
     In F S -> CycleReport st st' F S AI).
Proof.
  induction fuel as [|n IH]; [repeat split; intros; discriminate|].
  destruct IH as (IHr & IHb & IHi).
  split; [|split].
  - intros F AI S st st' H. simpl in H.
    destruct (existsb (Nat.eqb F) (stFullyInlined st)); [discriminate|].
    destruct (existsb (Nat.eqb F) S) eqn:Es.
    + injection H as <-. left. split; [apply existsb_eqb_true; exact Es|].
      destruct AI; simpl; rewrite ?app_nil_r; split; reflexivity.
    + right. split; [apply existsb_eqb_false; exact Es|].
      eapply IHb; [exact H|left; reflexivity].
  - intros F AI S st nb st' H HF. simpl in H. destruct nb as [|nb']; [discriminate|].
    eapply IHi; eauto.
  - intros F AI S st bi j st' H HF. simpl in H. destruct j as [|j']; [eapply IHb; eauto|].
    destruct (isApply (nth j' (nth bi (fBlocks (stFns st F)) []) (IOther 0))) eqn:Eapp;
      simpl in H; [|eapply IHi; eauto].
    destruct (nth_apply_in_range _ _ _ Eapp) as [Hbi Hj].
    set (InnerAI := tryDevirtualizeApplyHelper _) in H.
    set (st1 := withFns st (setBody (stFns st) F
                  (replaceInstr (fBlocks (stFns st F)) bi j' InnerAI))) in H.
    change (setBody (stFns st) F (replaceInstr (fBlocks (stFns st F)) bi j' InnerAI))
      with (stFns st1) in H.
    assert (Hst1F : fBlocks (stFns st1 F) = replaceInstr (fBlocks (stFns st F)) bi j' InnerAI).
    { simpl. rewrite setBody_at, Nat.eqb_refl. reflexivity. }
    assert (HIn1 : In InnerAI (concat (fBlocks (stFns st1 F))))
      by (rewrite Hst1F; apply In_replaceInstr; assumption).
    assert (Hne1 : fBlocks (stFns st1 F) <> []).
    { rewrite Hst1F. apply replaceInstr_nonempty. intros E; rewrite E in Hbi; simpl in Hbi; lia. }
    destruct (getCalleeFunction (stFns st1) F InnerAI) as [[|g|] fns2] eqn:Eg;
      [exact (IHi _ _ _ _ _ _ _ H HF)| |discriminate].
    destruct (gcf_resolved (stFns st1) F InnerAI g) as ((l & args & El) & Htg & _); [rewrite Eg; reflexivity|].
    assert (Ein : stFns (withFns st1 fns2) F = stFns st1 F).
    { simpl. replace fns2 with (snd (getCalleeFunction (stFns st1) F InnerAI)) by (rewrite Eg; reflexivity).
      destruct (gcf_effect (stFns st1) F InnerAI F) as [E|(E & _)]; [exact E|contradiction]. }
    set (stin := withFns st1 fns2) in H, Ein.
    destruct (runOnFunctionRecursively ci n g (Some (applyLoc InnerAI)) S stin)
      as [[b3 st3|]|] eqn:Er; try discriminate.
    destruct b3.
    + pose proof (proj1 (Done_true_diags n) _ _ _ _ _ Er) as E3. simpl in E3.
      destruct (ci InnerAI).
      * destruct (inlineFunction (fBlocks (stFns st3 F)) bi j' (applyArgs InnerAI) (fBlocks (stFns st3 g)))
          as [bs' tail].
        destruct (IHi _ _ _ _ _ _ _ H HF) as (path & l' & G & Hc & Hin & Hd).
        exists path, l', G. split; [exact Hc|]. split; [exact Hin|]. rewrite Hd. simpl. rewrite E3. reflexivity.
      * destruct (IHi _ _ _ _ _ _ _ H HF) as (path & l' & G & Hc & Hin & Hd).
        exists path, l', G. split; [exact Hc|]. split; [exact Hin|]. rewrite Hd, E3. reflexivity.
    + assert (Hfin : stFns (match AI with Some l0 => addDiag st3 (note_while_inlining l0) | None => st3 end)
                     = stFns st3 /\
                     stDiags (match AI with Some l0 => addDiag st3 (note_while_inlining l0) | None => st3 end)
                     = stDiags st3 ++ optDiag AI note_while_inlining)
        by (destruct AI; simpl; rewrite ?app_nil_r; split; reflexivity).
      injection H as <-. destruct Hfin as [Hf1 Hf2].
      assert (E3F : stFns st3 F = stFns stin F).
      { destruct (IHr _ _ _ _ _ Er) as [(_ & _ & Hf)|(Hg & _)]; [rewrite Hf; reflexivity|].
        pose proof (proj1 (Step_run ci n) _ _ _ _ _ _ Er) as (_ & _ & _ & Hc & _).
        destruct (Hc F) as [E|[(-> & Hg' & _)|(_ & [(Hs & _)|He])]].
        - exact E.
        - contradiction.
        - contradiction.
        - rewrite Ein in He. contradiction. }
      assert (Htg3 : fTransparent (stFns st3 g) = true).
      { rewrite (Step_transparent _ _ _ _ g (proj1 (Step_run ci n) _ _ _ _ _ _ Er)).
        unfold stin.
        replace fns2 with (snd (getCalleeFunction (stFns st1) F InnerAI)) by (rewrite Eg; reflexivity).
        rewrite (Step_transparent _ _ _ _ g (Step_gcf (fun _ => False) S st1 F InnerAI)).
        exact Htg. }
      assert (Hedge : exists args, In (IApply (applyLoc InnerAI) (CFunctionRef g) args) (concat (fBlocks (stFns st3 F)))).
      { exists args. rewrite E3F, Ein. rewrite El in HIn1 |- *. exact HIn1. }
      destruct (IHr _ _ _ _ _ Er) as [(Hg & Hd & Hf)|(Hg & path & l' & G & Hc & Hin & Hd)].
      * exists [], (applyLoc InnerAI), g. rewrite Hf1, Hf2. simpl.
        split; [split; [exact Htg3|split; [exact Hedge|exact I]]|]. split; [exact Hg|].
        rewrite Hd. simpl. rewrite <- app_assoc. reflexivity.
      * exists ((applyLoc InnerAI, g) :: path), l', G. rewrite Hf1, Hf2.
        split; [simpl; split; [exact Htg3|split; [exact Hedge|exact Hc]]|]. split.
        -- simpl. apply in_app_or in Hin as [Hin|[->|Hin]]; auto.
           right. apply in_or_app. left. exact Hin.
           right. apply in_or_app. right. exact Hin.
        -- rewrite Hd. simpl. rewrite map_app, <- !app_assoc. simpl. rewrite <- !app_assoc. reflexivity.
Qed.
End Chains.

(** C4: when the top-level run of [runOnFunctionRecursively] on [F] fails, it
    has found a chain of transparent direct calls from [F] closing on a
    function of the chain; the diagnostics it added are one
    [circular_transparent] at the closing call site followed by one
    [note_while_inlining] per enclosing call site, innermost first; the inline
    counter did not decrease (inlines already done are kept); and the
    top-level loop merges the blocks of [F] as they are and goes on with the
    next function. *)
Theorem cycle_report_chain ci merge fuel F st st'
    (Hrun : runOnFunctionRecursively ci fuel F None [] st = Some (Done false st')) :
  (exists path l G,
      CallChain (stFns st') F (path ++ [(l, G)]) /\ In G (F :: map snd path) /\
      stDiags st' = stDiags st ++ circular_transparent l
                    :: map note_while_inlining (rev (map fst path))) /\
  stNumInlines st <= stNumInlines st' /\
  (forall rest, fThunk (stFns st F) = false -> fDeserializedCanonical (stFns st F) = false ->
     processFunctions ci merge fuel (F :: rest) st =
     processFunctions ci merge fuel rest
       (withFns st' (setBody (stFns st') F (merge (fBlocks (stFns st' F)))))).
Proof.
  split; [|split].
  - destruct (proj1 (chain_run ci fuel) _ _ _ _ _ Hrun) as [([] & _)|(_ & path & l & G & Hc & Hin & Hd)].
    exists path, l, G. split; [exact Hc|]. split.
    + apply in_app_or in Hin as [Hin|Hin]; [right; exact Hin|left; destruct Hin as [->|[]]; reflexivity].
    + rewrite Hd. simpl. rewrite app_nil_r. reflexivity.
  - exact (proj1 (proj2 (proj2 (proj2 (proj2 (proj1 (Step_run ci fuel) _ _ _ _ _ _ Hrun)))))).
  - intros rest H1 H2. simpl. rewrite H1, H2, Hrun. reflexivity.
Qed.

Lemma cycle_report_chain_witness :
  exists st',
    runOnFunctionRecursively (fun _ => true) 20 0 None [] (initialState fnsChain)
      = Some (Done false st') /\
    (exists path l G,
        CallChain (stFns st') 0 (path ++ [(l, G)]) /\ In G (0 :: map snd path) /\
        stDiags st' = stDiags (initialState fnsChain) ++ circular_transparent l
                      :: map note_while_inlining (rev (map fst path))) /\
    stNumInlines (initialState fnsChain) <= stNumInlines st' /\
    (forall rest, fThunk (stFns (initialState fnsChain) 0) = false ->
       fDeserializedCanonical (stFns (initialState fnsChain) 0) = false ->
       processFunctions (fun _ => true) (fun bs => bs) 20 (0 :: rest) (initialState fnsChain) =
       processFunctions (fun _ => true) (fun bs => bs) 20 rest
         (withFns st' (setBody (stFns st') 0 (fBlocks (stFns st' 0))))).
Proof.
  destruct (runOnFunctionRecursively (fun _ => true) 20 0 None [] (initialState fnsChain))
    as [[[|] st'|]|] eqn:E; try (vm_compute in E; discriminate).
  exists st'. split; [reflexivity|].
  exact (cycle_report_chain (fun _ => true) (fun bs => bs) 20 0 (initialState fnsChain) st' E).
Defined.






Lemma repr_eqb_refl a : repr_eqb a a = true.
Proof. destruct a; reflexivity. Qed.









(** C9 (counterexample): the transparent thunk 1 of [fnsThunk] is skipped by
    the top-level loop ("Don't inline into thunks, even transparent
    callees"), but it is processed recursively as the callee of 0, and its
    call to 2 is inlined into the thunk's own body. *)
Lemma thunk_body_inlined :
  fThunk (fnsThunk 1) = true /\
  fBlocks (fnsThunk 1) = [[IApply 21 (CFunctionRef 2) []]] /\
  match MandatoryInlining_run (fun _ => true) (fun bs => bs) 20 false fnsThunk [0; 1; 2] with
  | Some (Finished st fs) => fBlocks (stFns st 1) = [[IOther 5]; []]
  | _ => False
  end.
Proof. vm_compute. repeat split; reflexivity. Qed.

(** A thunk or deserialized-canonical function that is not transparent
    ends the pass exactly as it started, body included. *)
Theorem skipped_functions_unchanged ci merge fuel DS fns module st fs
    (Hrun : MandatoryInlining_run ci merge fuel DS fns module = Some (Finished st fs)) X
    (Hk : fThunk (fns X) || fDeserializedCanonical (fns X) = true)
    (Ht : fTransparent (fns X) = false) :
  stFns st X = fns X.
Proof.
  unfold MandatoryInlining_run in Hrun.
  destruct (processFunctions ci merge fuel module (initialState fns)) as [[st1|]|] eqn:Ep;
    try discriminate.
  injection Hrun as <- _.
  exact (processFunctions_skipped_frame ci merge fuel module (initialState fns) st1 X Ep Hk Ht).
Qed.

Lemma skipped_functions_unchanged_witness :
  exists st fs,
    MandatoryInlining_run (fun _ => true) (fun bs => bs) 20 false fnsSkip [0; 1; 2]
      = Some (Finished st fs) /\
    fThunk (fnsSkip 0) || fDeserializedCanonical (fnsSkip 0) = true /\
    fTransparent (fnsSkip 0) = false /\
    fThunk (fnsSkip 2) || fDeserializedCanonical (fnsSkip 2) = true /\
    fTransparent (fnsSkip 2) = false /\
    stFns st 0 = fnsSkip 0 /\ stFns st 2 = fnsSkip 2.
Proof.
  destruct (MandatoryInlining_run (fun _ => true) (fun bs => bs) 20 false fnsSkip [0; 1; 2])
    as [[st fs|]|] eqn:E; try (vm_compute in E; discriminate).
  exists st, fs. split; [reflexivity|].
  split; [reflexivity|]. split; [reflexivity|]. split; [reflexivity|]. split; [reflexivity|].
  split.
  - apply (skipped_functions_unchanged (fun _ => true) (fun bs => bs) 20 false fnsSkip [0; 1; 2] st fs E 0);
      reflexivity.
  - apply (skipped_functions_unchanged (fun _ => true) (fun bs => bs) 20 false fnsSkip [0; 1; 2] st fs E 2);
      reflexivity.
Defined.







Lemma GInv_refl st : GInv st st.
Proof. destruct (Step_refl (fun _ => False) [] st) as (Hs & Hk & He & _). split; auto. Qed.

Lemma GInv_Step st0 st st' own S : GInv st0 st -> Step own S st st' -> GInv st0 st'.
Proof.
  intros (Hs0 & Hk0 & He0) (Hs & Hk & He & _).
  split; [|split].
  - intros X. rewrite (Hs X), (Hs0 X). reflexivity.
  - intros X H. apply Hk, Hk0, H.
  - intros X E1 E2. apply He; [apply He0; assumption|].
    rewrite (Hs0 X). exact E2.
Qed.







Lemma length_firstn_le {A} (l : list A) n : n <= length l -> length (firstn n l) = n.
Proof. intros H. rewrite length_firstn. lia. Qed.




Lemma In_replaceNth {A} (l : list A) n x z : In z (replaceNth l n x) -> In z l \/ z = x.
Proof.
  revert n. induction l as [|y l IH]; intros [|n]; simpl; try tauto.
  - intros [<-|H]; [right; reflexivity|left; right; exact H].
  - intros [<-|H]; [left; left; reflexivity|]. destruct (IH n H); tauto.
Qed.

Lemma In_nth_block (bs : list Block) bi z : In z (nth bi bs []) -> In z (concat bs).
Proof.
  intros H. destruct (nth_in_or_default bi bs []) as [Hb|Hb].
  - apply in_concat. exists (nth bi bs []). split; assumption.
  - rewrite Hb in H. destruct H.
Qed.

Lemma In_concat_replaceInstr bs bi j x z :
  In z (concat (replaceInstr bs bi j x)) -> In z (concat bs) \/ z = x.
Proof.
  unfold replaceInstr. intros H. apply in_concat in H as (B & HB & Hz).
  apply In_replaceNth in HB as [HB| ->].
  - left. apply in_concat. exists B. split; assumption.
  - apply In_replaceNth in Hz as [Hz| ->]; [left; eapply In_nth_block; exact Hz|right; reflexivity].
Qed.

Lemma In_firstn_ {A} n (l : list A) z : In z (firstn n l) -> In z l.
Proof. intros H. rewrite <- (firstn_skipn n l). apply in_or_app. left. exact H. Qed.

Lemma In_skipn_ {A} n (l : list A) z : In z (skipn n l) -> In z l.
Proof. intros H. rewrite <- (firstn_skipn n l). apply in_or_app. right. exact H. Qed.

Lemma setBody_transparent fns F bs y : fTransparent (setBody fns F bs y) = fTransparent (fns y).
Proof. rewrite setBody_at. destruct (y =? F) eqn:E; [apply Nat.eqb_eq in E; subst|]; reflexivity. Qed.

Lemma effBlocks_nonempty f : fBlocks f <> [] -> effBlocks f = fBlocks f.
Proof. unfold effBlocks. destruct (fBlocks f); [contradiction|reflexivity]. Qed.




Section Clean.
Variable ci : Instr -> bool.
Variable st0 : State.



End Clean.


Section Top.
Variable ci : Instr -> bool.
Variable merge : list Block -> list Block.
Hypothesis Hmerge_instrs : forall bs, incl (concat (merge bs)) (concat bs).
Hypothesis Hmerge_nil : forall bs, merge bs = [] <-> bs = [].
Variable st0 : State.






End Top.






(** ** Two functions calling each other *)

Lemma processFunctions_step ci m fuel (F : FName) (rest : list FName) st b st1 :
  fThunk (stFns st F) = false -> fDeserializedCanonical (stFns st F) = false ->
  runOnFunctionRecursively ci fuel F None [] st = Some (Done b st1) ->
  processFunctions ci m fuel (F :: rest) st =
  processFunctions ci m fuel rest
    (withFns st1 (setBody (stFns st1) F (m (fBlocks (stFns st1 F))))).
Proof. intros H1 H2 H3. simpl. rewrite H1, H2, H3. reflexivity. Qed.

Lemma setBody_same fns F : setBody fns F (fBlocks (fns F)) = fns.
Proof.
  apply functional_extensionality. intros x. unfold setBody, updateF.
  destruct (Nat.eqb_spec x F) as [->|]; [|reflexivity].
  destruct (fns F); reflexivity.
Qed.

(** C3 (counterexample): on the mutually recursive [fnsAB] the pass reports
    two cycle diagnostics, one for each top-level function. *)
Lemma mutual_cycle_reports_twice :
  match MandatoryInlining_run (fun _ => true) (fun bs => bs) 20 false fnsAB [0; 1] with
  | Some (Finished st fs) =>
      stDiags st = [circular_transparent 20; note_while_inlining 10;
                    circular_transparent 10; note_while_inlining 20]
  | _ => False
  end.
Proof. vm_compute. reflexivity. Qed.

Lemma setBody_same' fns F bs : fBlocks (fns F) = bs -> setBody fns F bs = fns.
Proof. intros <-. apply setBody_same. Qed.

Lemma gcf_direct fns F g l args c cs :
  isForeignRepresentation (fRepresentation (fns g)) = false -> fTransparent (fns g) = true ->
  fBlocks (fns g) = c :: cs ->
  fSerialized (fns F) && negb (fValidLinkageForFragileInline (fns g)) = false ->
  getCalleeFunction fns F (IApply l (CFunctionRef g)  args) = (Resolved g, fns).
Proof. intros H1 H2 H3 H4. simpl. rewrite H1, H2, H3. simpl. rewrite H3, H4. reflexivity. Qed.

Section Pair.
Variables (fns : Functions) (a b : FName) (la lb : Loc) (argsa argsb : list Callee).
Hypothesis Hab : a <> b.
Hypothesis Ha_rep : isForeignRepresentation (fRepresentation (fns a)) = false.
Hypothesis Ha_tr : fTransparent (fns a) = true.
Hypothesis Ha_ser : fSerialized (fns a) && negb (fValidLinkageForFragileInline (fns b)) = false.
Hypothesis Ha_blocks : fBlocks (fns a) = [[IApply la (CFunctionRef b) argsa]].
Hypothesis Hb_rep : isForeignRepresentation (fRepresentation (fns b)) = false.
Hypothesis Hb_tr : fTransparent (fns b) = true.
Hypothesis Hb_ser : fSerialized (fns b) && negb (fValidLinkageForFragileInline (fns a)) = false.
Hypothesis Hb_blocks : fBlocks (fns b) = [[IApply lb (CFunctionRef a) argsb]].

(** The top-level run on [a]: it resolves [b], whose call back to [a]
    closes the cycle. *)
Lemma pair_run ci fuel st :
  stFns st = fns -> stFullyInlined st = [] -> 7 <= fuel ->
  runOnFunctionRecursively ci fuel a None [] st =
  Some (Done false (mkState fns [] (stDiags st ++ [circular_transparent lb; note_while_inlining la])
                      (stNumInlines st))).
Proof.
  intros Hst Hfull Hfuel.
  destruct fuel as [|[|[|[|[|[|[|f]]]]]]]; try lia.
  destruct st as [fns0 full ds n]. simpl in Hst, Hfull. subst fns0 full.
  cbn [runOnFunctionRecursively scanBlocks scanInsts existsb stFullyInlined stFns].
  rewrite Ha_blocks. cbn [length nth isApply negb].
  cbn [tryDevirtualizeApplyHelper tryDevirtualizeApply replaceInstr replaceNth nth withFns stFns].
  match goal with |- context [setBody fns a ?bs] => rewrite (setBody_same' fns a bs Ha_blocks) end.
  rewrite (gcf_direct fns a b la argsa _ [] Hb_rep Hb_tr Hb_blocks Ha_ser).
  cbn [runOnFunctionRecursively scanBlocks scanInsts existsb stFullyInlined stFns].
  assert (Eba : Nat.eqb b a = false) by (apply Nat.eqb_neq; congruence).
  rewrite Eba. cbn [orb]. rewrite Hb_blocks.
  cbn [length nth isApply negb tryDevirtualizeApplyHelper tryDevirtualizeApply replaceInstr replaceNth nth withFns stFns].
  match goal with |- context [setBody fns b ?bs] => rewrite (setBody_same' fns b bs Hb_blocks) end.
  rewrite (gcf_direct fns b a lb argsb _ [] Ha_rep Ha_tr Ha_blocks Hb_ser).
  cbn [runOnFunctionRecursively existsb stFullyInlined stFns].
  assert (Eab : Nat.eqb a b = false) by (apply Nat.eqb_neq; congruence).
  rewrite Eab, Nat.eqb_refl. cbn [orb addDiag stFns stFullyInlined stDiags stNumInlines].
  unfold withFns, addDiag. simpl.
  rewrite <- app_assoc. reflexivity.
Qed.

End Pair.

(** C3: take a module whose functions are exactly [a] and [b], in this
    order, two distinct transparent functions, neither a thunk nor
    deserialized-canonical, whose bodies are a single block holding a
    single direct call to the other (with any arguments), and which pass
    the fragile-linkage check. For every [canInlineApplySite], every block
    merge that keeps a single block and enough fuel, the pass terminates
    with two cycle diagnostics, each followed by its note
    ([circular_transparent lb; note la; circular_transparent la; note lb]),
    inlines nothing and leaves every function unchanged. *)
Theorem mutual_cycle_outcome (canInline : Instr -> bool) (merge : list Block -> list Block)
  fuel DS fns a b la lb argsa argsb
  (Hab : a <> b)
  (Ha_rep : isForeignRepresentation (fRepresentation (fns a)) = false)
  (Ha_tr : fTransparent (fns a) = true)
  (Ha_thunk : fThunk (fns a) = false) (Ha_deser : fDeserializedCanonical (fns a) = false)
  (Ha_ser : fSerialized (fns a) && negb (fValidLinkageForFragileInline (fns b)) = false)
  (Ha_blocks : fBlocks (fns a) = [[IApply la (CFunctionRef b) argsa]])
  (Hb_rep : isForeignRepresentation (fRepresentation (fns b)) = false)
  (Hb_tr : fTransparent (fns b) = true)
  (Hb_thunk : fThunk (fns b) = false) (Hb_deser : fDeserializedCanonical (fns b) = false)
  (Hb_ser : fSerialized (fns b) && negb (fValidLinkageForFragileInline (fns a)) = false)
  (Hb_blocks : fBlocks (fns b) = [[IApply lb (CFunctionRef a) argsb]])
  (Hmerge : forall x, merge [x] = [x]) (Hfuel : 7 <= fuel) :
  exists st fs,
    MandatoryInlining_run canInline merge fuel DS fns [a; b] = Some (Finished st fs) /\
    stDiags st = [circular_transparent lb; note_while_inlining la;
                  circular_transparent la; note_while_inlining lb] /\
    stNumInlines st = 0 /\
    stFns st = fns.
Proof.
  unfold MandatoryInlining_run.
  rewrite (processFunctions_step canInline merge fuel a [b] (initialState fns) false
             (mkState fns [] [circular_transparent lb; note_while_inlining la] 0) Ha_thunk Ha_deser
             (pair_run fns a b la lb argsa argsb Hab Ha_rep Ha_tr Ha_ser Ha_blocks Hb_rep Hb_tr Hb_ser
                Hb_blocks canInline fuel (initialState fns) eq_refl eq_refl Hfuel)).
  cbn [stFns]. rewrite Ha_blocks, Hmerge.
  match goal with |- context [setBody fns a ?bs] => rewrite (setBody_same' fns a bs Ha_blocks) end.
  rewrite (processFunctions_step canInline merge fuel b []
             (withFns (mkState fns [] [circular_transparent lb; note_while_inlining la] 0) fns) false
             (mkState fns [] [circular_transparent lb; note_while_inlining la;
                              circular_transparent la; note_while_inlining lb] 0) Hb_thunk Hb_deser
             (pair_run fns b a lb la argsb argsa (not_eq_sym Hab) Hb_rep Hb_tr Hb_ser Hb_blocks
                Ha_rep Ha_tr Ha_ser Ha_blocks canInline fuel
                (withFns (mkState fns [] [circular_transparent lb; note_while_inlining la] 0) fns)
                eq_refl eq_refl Hfuel)).
  cbn [stFns]. rewrite Hb_blocks, Hmerge.
  match goal with |- context [setBody fns b ?bs] => rewrite (setBody_same' fns b bs Hb_blocks) end.
  simpl. eexists _, _. split; [reflexivity|]. repeat split; reflexivity.
Qed.

Lemma mutual_cycle_outcome_witness :
  exists st fs,
    MandatoryInlining_run (fun _ => true) (fun bs => bs) 20 false fnsAB [0; 1] = Some (Finished st fs) /\
    stDiags st = [circular_transparent 20; note_while_inlining 10;
                  circular_transparent 10; note_while_inlining 20] /\
    stNumInlines st = 0 /\
    stFns st = fnsAB.
Proof.
  apply (mutual_cycle_outcome (fun _ => true) (fun bs => bs) 20 false fnsAB 0 1 10 20 [] []);
    first [discriminate | reflexivity | lia | intros x; reflexivity].
Defined.

End DriverFacts.

(** * Further properties of callee resolution and boxed-callee cleanup *)

Module CalleeResolutionExtra.
Import CalleeResolution CalleeExamples ExtraExamples CalleeResolutionFacts.

Lemma getCalleeFunction_walk m F AI ci :
  fst (getCalleeFunction m F AI) = Resolved ci ->
  exists callee args, ikind AI = KApply callee args /\ walkCalleeValue (m F) callee args = Some ci.
Proof.
  unfold getCalleeFunction. destruct (ikind AI) as [| | | | | | | | | | | | | |callee args| |]; try discriminate.
  destruct (walkCalleeValue (m F) callee args) as [c|] eqn:Ew; [|discriminate].
  intros H. exists callee, args. split; [reflexivity|]. rewrite Ew. f_equal.
  destruct (isForeignRepresentation _); [discriminate|].
  destruct (negb _); [discriminate|].
  destruct (fnBlocks _); [discriminate|].
  destruct (_ && _); [destruct (negb _); discriminate|]. simpl in H. congruence.
Qed.

Theorem getCalleeFunction_arguments m F AI ci :
  fst (getCalleeFunction m F AI) = Resolved ci ->
  (exists callee args, ikind AI = KApply callee args /\
     ciFullArgs ci = args ++ map fst (ciCaptureArgs ci)) /\
  (ciPartialApply ci = None -> ciCaptureArgs ci = []) /\
  (ciIsThick ci = false -> ciPartialApply ci = None) /\
  (forall p, ciPartialApply ci = Some p ->
     ciIsThick ci = true /\ In p (allInsts (m F)) /\
     exists c, ikind p = KPartialApply c (ciCaptureArgs ci)).
Proof.
  intros H. destruct (getCalleeFunction_walk m F AI ci H) as (callee & args & HAI & Ew).
  unfold walkCalleeValue in Ew.
  destruct (match findInst (m F) callee with
            | Some LI => if isLoad LI then seeThroughBoxLoad (m F) LI else Some callee
            | None => Some callee end) as [cv0|]; [|discriminate].
  destruct (findInst (m F) (skipFuncConvert (m F) cv0)) as [i|] eqn:Ei.
  - destruct (ikind i) eqn:Ek;
      (match type of Ew with context [findInst ?f ?v] => destruct (findInst f v) as [fri|] end);
      try discriminate;
      destruct (ikind fri); try discriminate; injection Ew as <-; simpl;
      (split; [exists callee, args; split; [exact HAI|try reflexivity]|]);
      try (rewrite app_nil_r; reflexivity);
      (split; [intros E; try discriminate; reflexivity|split; [intros E; try discriminate; reflexivity|]]);
      intros p Ep; try discriminate.
    injection Ep as <-. split; [reflexivity|]. split; [eapply findInst_In; exact Ei|].
    eexists; exact Ek.
  - (match type of Ew with context [findInst ?f ?v] => destruct (findInst f v) as [fri|] end);
      [|discriminate].
    destruct (ikind fri); try discriminate. injection Ew as <-; simpl.
    split; [exists callee, args; split; [exact HAI|rewrite app_nil_r; reflexivity]|].
    split; [reflexivity|]. split; [reflexivity|]. intros p Ep; discriminate.
Qed.

Lemma setBlocks_attrs f bs :
  fnRepresentation (setBlocks f bs) = fnRepresentation f /\
  fnTransparent (setBlocks f bs) = fnTransparent f /\
  fnSerialized (setBlocks f bs) = fnSerialized f /\
  fnValidLinkageForFragileInline (setBlocks f bs) = fnValidLinkageForFragileInline f /\
  fnBlocks (setBlocks f bs) = bs.
Proof. repeat split. Qed.

Theorem getCalleeFunction_resolved_callee m F AI ci :
  fst (getCalleeFunction m F AI) = Resolved ci ->
  let m1 := snd (getCalleeFunction m F AI) in
  isForeignRepresentation (fnRepresentation (m1 (ciCallee ci))) = false /\
  fnTransparent (m1 (ciCallee ci)) = true /\
  fnBlocks (m1 (ciCallee ci)) <> [] /\
  (fnSerialized (m1 F) = true -> fnValidLinkageForFragileInline (m1 (ciCallee ci)) = true).
Proof.
  intros H. destruct (getCalleeFunction_walk m F AI ci H) as (callee & args & HAI & Ew).
  revert H. unfold getCalleeFunction. rewrite HAI, Ew. cbv zeta.
  destruct (isForeignRepresentation (fnRepresentation (m (ciCallee ci)))) eqn:Efr;
    [discriminate|].
  destruct (fnTransparent (m (ciCallee ci))) eqn:Etr; [|discriminate]. simpl negb.
  set (m1 := match fnBlocks (m (ciCallee ci)) with
             | [] => loadFunction m (ciCallee ci) | _ :: _ => m end).
  assert (Hattr : fnRepresentation (m1 (ciCallee ci)) = fnRepresentation (m (ciCallee ci)) /\
                  fnTransparent (m1 (ciCallee ci)) = fnTransparent (m (ciCallee ci))).
  { subst m1. destruct (fnBlocks (m (ciCallee ci))) eqn:Eb; [|split; reflexivity].
    unfold loadFunction. rewrite Eb. unfold updateFn. rewrite Nat.eqb_refl. split; reflexivity. }
  destruct (fnBlocks (m1 (ciCallee ci))) as [|b bs] eqn:Eb1; [discriminate|].
  destruct (fnSerialized (m1 F) && negb (fnValidLinkageForFragileInline (m1 (ciCallee ci)))) eqn:Es.
  - intros H; destruct (fnValidLinkageForFragileRef _); simpl in H; discriminate.
  - intros _. rewrite ?Es. cbv zeta. simpl snd. rewrite ?Es. simpl. destruct Hattr as [-> ->]. rewrite Efr, Etr, Eb1.
    split; [reflexivity|]. split; [reflexivity|]. split; [discriminate|].
    intros E. rewrite E in Es. destruct (fnValidLinkageForFragileInline _); [reflexivity|discriminate].
Qed.

Theorem getCalleeFunction_rejects_before_load m F AI callee args ci
  (HAI : ikind AI = KApply callee args)
  (Hw : walkCalleeValue (m F) callee args = Some ci)
  (Hrej : isForeignRepresentation (fnRepresentation (m (ciCallee ci))) = true \/
          fnTransparent (m (ciCallee ci)) = false) :
  getCalleeFunction m F AI = (Unresolved, m).
Proof.
  unfold getCalleeFunction. rewrite HAI, Hw. cbv zeta.
  destruct Hrej as [-> | E]; [reflexivity|].
  destruct (isForeignRepresentation _); [reflexivity|]. rewrite E. reflexivity.
Qed.

Lemma skipFuncConvert_closure f v i :
  findInst f v = Some i ->
  (exists c ps, ikind i = KPartialApply c ps) \/ (exists c, ikind i = KThinToThickFunction c) \/
  (exists g, ikind i = KFunctionRef g) ->
  skipFuncConvert f v = v.
Proof.
  intros Hi Hk. unfold skipFuncConvert. rewrite Hi.
  destruct Hk as [(c & ps & ->)|[(c & ->)|(g & ->)]]; reflexivity.
Qed.

Theorem getCalleeFunction_one_closure m F AI c args i1 c2 i2
  (HAI : ikind AI = KApply c args)
  (H1 : findInst (m F) c = Some i1)
  (Hk1 : (exists ps, ikind i1 = KPartialApply c2 ps) \/ ikind i1 = KThinToThickFunction c2)
  (H2 : findInst (m F) c2 = Some i2)
  (Hk2 : (exists c3 ps, ikind i2 = KPartialApply c3 ps) \/
         (exists c3, ikind i2 = KThinToThickFunction c3)) :
  getCalleeFunction m F AI = (Unresolved, m).
Proof.
  assert (Hs1 : skipFuncConvert (m F) c = c).
  { apply (skipFuncConvert_closure _ _ i1 H1).
    destruct Hk1 as [(ps & E)|E]; [left; eauto|right; left; eauto]. }
  assert (Hs2 : skipFuncConvert (m F) c2 = c2).
  { apply (skipFuncConvert_closure _ _ i2 H2). destruct Hk2; tauto. }
  unfold getCalleeFunction. rewrite HAI. unfold walkCalleeValue. rewrite H1.
  assert (Hl : isLoad i1 = false) by (destruct Hk1 as [(ps & E)|E]; unfold isLoad; rewrite E; reflexivity).
  rewrite Hl, Hs1, H1.
  destruct Hk1 as [(ps & E1)|E1]; rewrite E1; cbv iota zeta beta; rewrite Hs2, H2;
    destruct Hk2 as [(c3 & ps' & E2)|(c3 & E2)]; rewrite E2; reflexivity.
Qed.

Theorem getCalleeFunction_closure_of_function_ref m F AI c args i1 v pargs fr g
  (HAI : ikind AI = KApply c args)
  (H1 : findInst (m F) c = Some i1)
  (Hk1 : ikind i1 = KPartialApply v pargs \/ (ikind i1 = KThinToThickFunction v /\ pargs = []))
  (Hfr : findInst (m F) v = Some fr) (Hg : ikind fr = KFunctionRef g)
  (Hnat : isForeignRepresentation (fnRepresentation (m g)) = false)
  (Ht : fnTransparent (m g) = true) (Hb : fnBlocks (m g) <> [])
  (Hfrag : fnSerialized (m F) = true -> fnValidLinkageForFragileInline (m g) = true) :
  exists ci, getCalleeFunction m F AI = (Resolved ci, m) /\
    ciCallee ci = g /\ ciIsThick ci = true /\ ciCaptureArgs ci = pargs /\
    ciFullArgs ci = args ++ map fst pargs.
Proof.
  assert (Hs1 : skipFuncConvert (m F) c = c).
  { apply (skipFuncConvert_closure _ _ i1 H1).
    destruct Hk1 as [E|(E & _)]; [left; eauto|right; left; eauto]. }
  assert (Hs2 : skipFuncConvert (m F) v = v).
  { apply (skipFuncConvert_closure _ _ fr Hfr). right; right; eauto. }
  assert (Hl : isLoad i1 = false) by (destruct Hk1 as [E|(E & _)]; unfold isLoad; rewrite E; reflexivity).
  assert (Hw : exists ci, walkCalleeValue (m F) c args = Some ci /\
    ciCallee ci = g /\ ciIsThick ci = true /\ ciCaptureArgs ci = pargs /\
    ciFullArgs ci = args ++ map fst pargs).
  { unfold walkCalleeValue. rewrite H1, Hl, Hs1, H1.
    destruct Hk1 as [E1|(E1 & ->)]; rewrite E1; cbv iota zeta beta; rewrite Hs2, Hfr, Hg;
      eexists; (split; [reflexivity|]); repeat split. }
  destruct Hw as (ci & Hw & Hc & Hth & Hca & Hfa).
  exists ci. split; [|tauto].
  unfold getCalleeFunction. rewrite HAI, Hw. cbv zeta. rewrite Hc, Hnat, Ht. simpl negb.
  destruct (fnBlocks (m g)) as [|b bs] eqn:Eb; [contradiction|].
  destruct (fnSerialized (m F)) eqn:Es.
  - rewrite (Hfrag eq_refl), Eb. reflexivity.
  - rewrite Eb. reflexivity.
Qed.

(** ** Instruction lists under erasure and insertion *)

Lemma find_none_intro {A} (p : A -> bool) l : (forall x, In x l -> p x = false) -> find p l = None.
Proof. induction l as [|a l IH]; simpl; [reflexivity|]. intros H. rewrite (H a (or_introl eq_refl)). apply IH. auto. Qed.

Lemma findInst_None f v : findInst f v = None <-> forall i, In i (allInsts f) -> iid i <> v.
Proof.
  unfold findInst. split.
  - intros H i Hi E. pose proof (find_none _ _ H i Hi) as E'. simpl in E'.
    rewrite E, Nat.eqb_refl in E'. discriminate.
  - intros H. apply find_none_intro. intros i Hi. apply Nat.eqb_neq. apply H, Hi.
Qed.

Lemma allInsts_eraseInst f x i : In i (allInsts (eraseInst f x)) <-> In i (allInsts f) /\ iid i <> x.
Proof.
  unfold allInsts, eraseInst. simpl. rewrite !in_concat. split.
  - intros (b & Hb & Hi). apply in_map_iff in Hb as (b0 & <- & Hb0).
    apply filter_In in Hi as [Hi E]. split; [exists b0; split; assumption|].
    apply negb_true_iff, Nat.eqb_neq in E. exact E.
  - intros ((b0 & Hb0 & Hi) & E). exists (filter (fun i => negb (iid i =? x)) b0).
    split; [apply in_map; exact Hb0|]. apply filter_In. split; [exact Hi|].
    apply negb_true_iff, Nat.eqb_neq. exact E.
Qed.

Lemma insertBeforeInBlock_In a n b i : In i (insertBeforeInBlock a n b) -> i = n \/ In i b.
Proof.
  induction b as [|x b IH]; simpl; [tauto|].
  destruct (iid x =? a); simpl.
  - intros [<-|[<-|H]]; tauto.
  - intros [<-|H]; [tauto|]. destruct (IH H); tauto.
Qed.

Lemma allInsts_insertBefore f a n i : In i (allInsts (insertBefore f a n)) -> i = n \/ In i (allInsts f).
Proof.
  unfold allInsts, insertBefore. simpl. rewrite !in_concat.
  intros (b & Hb & Hi). apply in_map_iff in Hb as (b0 & <- & Hb0).
  destruct (insertBeforeInBlock_In _ _ _ _ Hi) as [->|H]; [left; reflexivity|].
  right. exists b0. split; assumption.
Qed.

Lemma users_In f v u : In u (users f v) -> In u (allInsts f).
Proof.
  unfold users. rewrite in_flat_map. intros (i & Hi & Hu).
  apply in_map_iff in Hu as (_ & <- & _). exact Hi.
Qed.

Lemma users_eraseInst f x v u : In u (users (eraseInst f x) v) -> In u (users f v).
Proof.
  unfold users. rewrite !in_flat_map. intros (i & Hi & Hu). exists i. split; [|exact Hu].
  apply allInsts_eraseInst in Hi. apply Hi.
Qed.

Lemma absent_eraseInst f x v : findInst f v = None -> findInst (eraseInst f x) v = None.
Proof.
  rewrite !findInst_None. intros H i Hi. apply allInsts_eraseInst in Hi. apply H, Hi.
Qed.

Lemma absent_eraseInst_self f x : findInst (eraseInst f x) x = None.
Proof. apply findInst_None. intros i Hi. apply allInsts_eraseInst in Hi. apply Hi. Qed.

Lemma absent_insertBefore f a n v : iid n <> v -> findInst f v = None ->
  findInst (insertBefore f a n) v = None.
Proof.
  rewrite !findInst_None. intros Hn H i Hi.
  destruct (allInsts_insertBefore _ _ _ _ Hi) as [->|Hi']; [exact Hn|apply H, Hi'].
Qed.

Lemma scanPBIUses_found us : forall SI r, scanPBIUses us SI = Some (Some r) -> SI = Some r \/ In r us.
Proof.
  induction us as [|u us IH]; intros SI r H; simpl in H.
  - left. congruence.
  - destruct ((match SI with None => true | Some _ => false end) && isStore u); [|discriminate].
    destruct (IH _ _ H) as [E|E]; [injection E as ->; right; left; reflexivity|right; right; exact E].
Qed.

Lemma scanABIUses_found PBI us : forall SRI r, scanABIUses PBI us SRI = Some (Some r) ->
  SRI = Some r \/ In r us.
Proof.
  induction us as [|u us IH]; intros SRI r H; simpl in H.
  - left. congruence.
  - destruct ((match SRI with None => true | Some _ => false end) && isStrongRelease u).
    + destruct (IH _ _ H) as [E|E]; [injection E as ->; right; left; reflexivity|right; right; exact E].
    + destruct (iid u =? PBI); [|discriminate].
      destruct (IH _ _ H) as [E|E]; [left; exact E|right; right; exact E].
Qed.

Theorem cleanupLoadedCalleeValue_success f CalleeValue LI fresh v f'
  (Hfresh : forall i, In i (allInsts f) -> iid i < fresh)
  (HLI : In LI (allInsts f))
  (Hr : cleanupLoadedCalleeValue f CalleeValue LI fresh = (Some v, f')) :
  exists PBI ABI SI,
    ikind LI = KLoad (iid PBI) /\ ikind PBI = KProjectBox (iid ABI) /\ ikind ABI = KAllocBox /\
    users f (iid LI) = [] /\
    In SI (users f (iid PBI)) /\ storeSrc SI = Some v /\
    findInst f' (iid LI) = None /\ findInst f' (iid SI) = None /\
    findInst f' (iid PBI) = None /\ findInst f' (iid ABI) = None.
Proof.
  unfold cleanupLoadedCalleeValue in Hr.
  destruct (ikind LI) eqn:ELI; try discriminate.
  destruct (findInst f addr) as [PBI|] eqn:EP; [|discriminate].
  destruct (ikind PBI) eqn:EPk; try discriminate.
  destruct (findInst f box) as [ABI|] eqn:EA; [|discriminate].
  destruct (ikind ABI) eqn:EAk; try discriminate.
  destruct (users f (iid LI)) eqn:EU; [|discriminate].
  set (f1 := eraseInst f (iid LI)) in Hr.
  destruct (scanABIUses (iid PBI) (users f1 (iid ABI)) None) as [SRI|] eqn:ESR; [|discriminate].
  destruct (scanPBIUses (users f1 (iid PBI)) None) as [[si|]|] eqn:ESI; try discriminate.
  assert (Hsi : In si (users f (iid PBI))).
  { destruct (scanPBIUses_found _ _ _ ESI) as [E|E]; [discriminate|].
    apply users_eraseInst in E. exact E. }
  assert (Hsi_lt : iid si < fresh) by (apply Hfresh; eapply users_In; exact Hsi).
  assert (HLI_lt : iid LI < fresh) by (apply Hfresh; exact HLI).
  pose proof (findInst_iid _ _ _ EP) as <-. pose proof (findInst_iid _ _ _ EA) as <-.
  set (f2 := eraseInst f1 (iid si)) in Hr.
  assert (A2 : findInst f2 (iid LI) = None /\ findInst f2 (iid si) = None).
  { split; [apply absent_eraseInst, absent_eraseInst_self|apply absent_eraseInst_self]. }
  assert (Hsrc : storeSrc si = Some v).
  { destruct (storeSrc si) as [v0|]; [|destruct SRI; discriminate].
    destruct SRI; injection Hr as E _; rewrite E; reflexivity. }
  rewrite Hsrc in Hr.
  set (f3 := match SRI with
             | Some sri => eraseInst (emitStrongReleaseAndFold f2 sri v fresh) (iid sri)
             | None => f2 end) in Hr.
  assert (A3 : findInst f3 (iid LI) = None /\ findInst f3 (iid si) = None).
  { subst f3. destruct SRI as [sri|]; [|exact A2].
    unfold emitStrongReleaseAndFold.
    split; apply absent_eraseInst, absent_insertBefore; simpl; try lia; apply A2. }
  injection Hr as <-.
  exists PBI, ABI, si. repeat split; try assumption.
  - apply absent_eraseInst, absent_eraseInst, A3.
  - apply absent_eraseInst, absent_eraseInst, A3.
  - apply absent_eraseInst, absent_eraseInst_self.
  - apply absent_eraseInst_self.
Qed.

Lemma getCalleeFunction_arguments_witness :
  let ci := mkCalleeInfo 7 true [(1, Direct_Owned)] [1] (Some ex_pai) in
  fst (getCalleeFunction pa_module 1 ex_ai) = Resolved ci /\
  ((exists callee args, ikind ex_ai = KApply callee args /\
     ciFullArgs ci = args ++ map fst (ciCaptureArgs ci)) /\
   (ciPartialApply ci = None -> ciCaptureArgs ci = []) /\
   (ciIsThick ci = false -> ciPartialApply ci = None) /\
   (forall p, ciPartialApply ci = Some p ->
      ciIsThick ci = true /\ In p (allInsts (pa_module 1)) /\
      exists c, ikind p = KPartialApply c (ciCaptureArgs ci))).
Proof.
  intros ci. split; [reflexivity|].
  apply (getCalleeFunction_arguments pa_module 1 ex_ai ci). reflexivity.
Defined.

Lemma getCalleeFunction_resolved_callee_witness :
  let ci := mkCalleeInfo 7 true [(1, Direct_Owned)] [1] (Some ex_pai) in
  fst (getCalleeFunction pa_module 1 ex_ai) = Resolved ci /\
  (let m1 := snd (getCalleeFunction pa_module 1 ex_ai) in
   isForeignRepresentation (fnRepresentation (m1 (ciCallee ci))) = false /\
   fnTransparent (m1 (ciCallee ci)) = true /\
   fnBlocks (m1 (ciCallee ci)) <> [] /\
   (fnSerialized (m1 1) = true -> fnValidLinkageForFragileInline (m1 (ciCallee ci)) = true)).
Proof.
  intros ci. split; [reflexivity|].
  apply (getCalleeFunction_resolved_callee pa_module 1 ex_ai ci). reflexivity.
Defined.

Lemma getCalleeFunction_rejects_before_load_witness :
  walkCalleeValue (opaque_module 1) 0 [] = Some (mkCalleeInfo 7 false [] [] None) /\
  fnTransparent (opaque_module 7) = false /\
  getCalleeFunction opaque_module 1 frag_ai = (Unresolved, opaque_module).
Proof.
  split; [reflexivity|]. split; [reflexivity|].
  apply (getCalleeFunction_rejects_before_load opaque_module 1 frag_ai 0 []
           (mkCalleeInfo 7 false [] [] None)); [reflexivity|reflexivity|right; reflexivity].
Defined.

Lemma getCalleeFunction_one_closure_witness :
  findInst (tt_module 1) 2 = Some tt_2 /\ findInst (tt_module 1) 1 = Some tt_1 /\
  getCalleeFunction tt_module 1 tt_ai = (Unresolved, tt_module).
Proof.
  split; [reflexivity|]. split; [reflexivity|].
  apply (getCalleeFunction_one_closure tt_module 1 tt_ai 2 [] tt_2 1 tt_1);
    [reflexivity|reflexivity|right; reflexivity|reflexivity|right; exists 0; reflexivity].
Defined.

Lemma getCalleeFunction_closure_of_function_ref_witness :
  exists ci, getCalleeFunction pa_module 1 ex_ai = (Resolved ci, pa_module) /\
    ciCallee ci = 7 /\ ciIsThick ci = true /\ ciCaptureArgs ci = [(1, Direct_Owned)] /\
    ciFullArgs ci = [] ++ map fst [(1, Direct_Owned)].
Proof.
  apply (getCalleeFunction_closure_of_function_ref pa_module 1 ex_ai 2 [] ex_pai 0
           [(1, Direct_Owned)] ex_fr 7);
    first [reflexivity | left; reflexivity | discriminate | intros H; discriminate H].
Defined.

Lemma cleanupLoadedCalleeValue_success_witness :
  exists f', cleanupLoadedCalleeValue box_inlined 14 box_li 20 = (Some 12, f') /\
  exists PBI ABI SI,
    ikind box_li = KLoad (iid PBI) /\ ikind PBI = KProjectBox (iid ABI) /\ ikind ABI = KAllocBox /\
    users box_inlined (iid box_li) = [] /\
    In SI (users box_inlined (iid PBI)) /\ storeSrc SI = Some 12 /\
    findInst f' (iid box_li) = None /\ findInst f' (iid SI) = None /\
    findInst f' (iid PBI) = None /\ findInst f' (iid ABI) = None.
Proof.
  exists (snd (cleanupLoadedCalleeValue box_inlined 14 box_li 20)). split; [reflexivity|].
  apply (cleanupLoadedCalleeValue_success box_inlined 14 box_li 20 12).
  - simpl. intros i Hi. repeat destruct Hi as [<-|Hi]; simpl; [lia|lia|lia|lia|lia|lia|lia|destruct Hi].
  - simpl. tauto.
  - reflexivity.
Defined.

End CalleeResolutionExtra.

(** * Further properties of the driver *)

Module DriverExtra.
Import Driver DriverExamples DriverInvariants DriverFacts.

Lemma SameStatics_trans st0 st st' : SameStatics st0 st -> SameStatics st st' -> SameStatics st0 st'.
Proof. intros H1 H2 X. rewrite (H2 X), (H1 X), withBlocks_withBlocks. reflexivity. Qed.

Lemma SameStatics_setBody st0 st F bs :
  SameStatics st0 st -> SameStatics st0 (withFns st (setBody (stFns st) F bs)).
Proof.
  intros H X. simpl. unfold setBody, updateF. destruct (Nat.eqb_spec X F) as [->|_]; [|apply H].
  rewrite (H F), withBlocks_withBlocks. reflexivity.
Qed.

Lemma processFunctions_statics ci merge fuel : forall fs st st' st0,
  processFunctions ci merge fuel fs st = Some (PassDone st') ->
  SameStatics st0 st -> SameStatics st0 st'.
Proof.
  induction fs as [|F rest IH]; intros st st' st0 H H0; simpl in H.
  - injection H as <-. exact H0.
  - destruct (fThunk (stFns st F)); [eapply IH; eauto|].
    destruct (fDeserializedCanonical (stFns st F)); [eapply IH; eauto|].
    destruct (runOnFunctionRecursively ci fuel F None [] st) as [[b st1|]|] eqn:Er; try discriminate.
    eapply IH; [exact H|]. apply SameStatics_setBody.
    eapply SameStatics_trans; [exact H0|]. apply (proj1 (Step_run ci fuel) _ _ _ _ _ _ Er).
Qed.

Lemma processFunctions_GInv ci merge (Hmerge_nil : forall bs, merge bs = [] <-> bs = []) fuel :
  forall fs st st' st0,
  processFunctions ci merge fuel fs st = Some (PassDone st') -> GInv st0 st -> GInv st0 st'.
Proof.
  induction fs as [|F rest IH]; intros st st' st0 H H0; simpl in H.
  - injection H as <-. exact H0.
  - destruct (fThunk (stFns st F)); [eapply IH; eauto|].
    destruct (fDeserializedCanonical (stFns st F)); [eapply IH; eauto|].
    destruct (runOnFunctionRecursively ci fuel F None [] st) as [[b st1|]|] eqn:Er; try discriminate.
    eapply IH; [exact H|]. eapply GInv_Step.
    + eapply GInv_Step; [exact H0|]. exact (proj1 (Step_run ci fuel) _ _ _ _ _ _ Er).
    + apply (Step_setBody (fun X => X = F) []); [reflexivity| |].
      * intros Hne E. apply (proj1 (Hmerge_nil _)) in E. exact (Hne E).
      * intros E _. apply Hmerge_nil. exact E.
Qed.

Lemma MandatoryInlining_run_process ci merge fuel DS fns module st fs :
  MandatoryInlining_run ci merge fuel DS fns module = Some (Finished st fs) ->
  processFunctions ci merge fuel module (initialState fns) = Some (PassDone st).
Proof.
  unfold MandatoryInlining_run.
  destruct (processFunctions ci merge fuel module (initialState fns)) as [[st1|]|]; try discriminate.
  intros [= <- _]. reflexivity.
Qed.

Theorem pass_keeps_attributes ci merge fuel DS fns module st fs
  (Hrun : MandatoryInlining_run ci merge fuel DS fns module = Some (Finished st fs)) X :
  stFns st X = withBlocks (fns X) (fBlocks (stFns st X)).
Proof.
  apply (processFunctions_statics ci merge fuel module (initialState fns) st (initialState fns)
           (MandatoryInlining_run_process _ _ _ _ _ _ _ _ Hrun)).
  intros Y. simpl. symmetry. apply withBlocks_eta.
Qed.

Theorem pass_keeps_bodies ci merge fuel DS fns module st fs
  (Hmerge_nil : forall bs, merge bs = [] <-> bs = [])
  (Hrun : MandatoryInlining_run ci merge fuel DS fns module = Some (Finished st fs)) X :
  (fBlocks (fns X) <> [] -> fBlocks (stFns st X) <> []) /\
  (fBlocks (fns X) = [] -> fSerializedBody (fns X) = [] -> fBlocks (stFns st X) = []).
Proof.
  destruct (processFunctions_GInv ci merge Hmerge_nil fuel module (initialState fns) st
              (initialState fns) (MandatoryInlining_run_process _ _ _ _ _ _ _ _ Hrun)
              (GInv_refl _)) as (_ & Hk & He).
  split; [apply Hk|]. intros E1 E2. apply He; assumption.
Qed.

Theorem run_frame ci fuel F AI S st b st'
  (Hrun : runOnFunctionRecursively ci fuel F AI S st = Some (Done b st')) X
  (HX : X <> F)
  (Hk : fTransparent (stFns st X) = false \/
        ((In X S \/ In X (stFullyInlined st)) /\ fBlocks (stFns st X) <> [])) :
  stFns st' X = stFns st X.
Proof.
  destruct (proj1 (Step_run ci fuel) _ _ _ _ _ _ Hrun) as (_ & _ & _ & Hc & _).
  destruct (Hc X) as [E|[(E & _)|(Ht & Ho)]]; [exact E|contradiction|].
  exfalso. destruct Hk as [Hk|([Hk|Hk] & Hne)]; [congruence| |];
    (destruct Ho as [(Hs & Hf)|He]; [tauto|contradiction]).
Qed.

Theorem run_success_no_diagnostics ci fuel F AI S st st'
  (Hrun : runOnFunctionRecursively ci fuel F AI S st = Some (Done true st')) :
  stDiags st' = stDiags st.
Proof. exact (proj1 (Done_true_diags ci fuel) _ _ _ _ _ Hrun). Qed.

Section FullyInlined.
Variable ci : Instr -> bool.

Lemma fully_run : forall fuel,
  (forall F AI S st b st', runOnFunctionRecursively ci fuel F AI S st = Some (Done b st') ->
     (forall X, In X S -> In X (stFullyInlined st') -> In X (stFullyInlined st)) /\
     (b = true <-> In F (stFullyInlined st'))) /\
  (forall F AI S st nb b st', scanBlocks ci fuel F AI S st nb = Some (Done b st') -> In F S ->
     (forall X, In X S -> X <> F -> In X (stFullyInlined st') -> In X (stFullyInlined st)) /\
     (b = true -> In F (stFullyInlined st')) /\
     (b = false -> In F (stFullyInlined st') -> In F (stFullyInlined st))) /\
  (forall F AI S st bi j b st', scanInsts ci fuel F AI S st bi j = Some (Done b st') -> In F S ->
     (forall X, In X S -> X <> F -> In X (stFullyInlined st') -> In X (stFullyInlined st)) /\
     (b = true -> In F (stFullyInlined st')) /\
     (b = false -> In F (stFullyInlined st') -> In F (stFullyInlined st))).
Proof.
  induction fuel as [|n IH]; [repeat split; intros; discriminate|].
  destruct IH as (IHr & IHb & IHi).
  split; [|split].
  - intros F AI S st b st' H. simpl in H.
    destruct (existsb (Nat.eqb F) (stFullyInlined st)) eqn:Ef.
    { injection H as <- <-. split; [tauto|]. split; [intros _|reflexivity].
      apply existsb_eqb_true. exact Ef. }
    destruct (existsb (Nat.eqb F) S) eqn:Es.
    { injection H as <- <-. split; [destruct AI; simpl; tauto|].
      split; [discriminate|]. intros Hin. exfalso.
      assert (Hin' : In F (stFullyInlined st)) by (destruct AI; exact Hin).
      apply (existsb_eqb_false _ _ Ef). exact Hin'. }
    destruct (IHb _ _ _ _ _ _ _ H (or_introl eq_refl)) as (H1 & H2 & H3).
    split.
    + intros X HX. apply H1; [right; exact HX|].
      intros ->. exact (existsb_eqb_false _ _ Es HX).
    + split; [exact H2|]. destruct b; [reflexivity|].
      intros Hin. exfalso. exact (existsb_eqb_false _ _ Ef (H3 eq_refl Hin)).
  - intros F AI S st nb b st' H HF. simpl in H. destruct nb as [|nb'].
    + injection H as <- <-. simpl. split; [intros X _ HX [->|Hin]; [contradiction|exact Hin]|].
      split; [intros _; left; reflexivity|discriminate].
    + eapply IHi; eauto.
  - intros F AI S st bi j b st' H HF. simpl in H. destruct j as [|j'].
    + eapply IHb; eauto.
    + destruct (isApply (nth j' (nth bi (fBlocks (stFns st F)) []) (IOther 0)));
        simpl in H; [|eapply IHi; eauto].
      set (InnerAI := tryDevirtualizeApplyHelper _) in H.
      set (st1 := withFns st (setBody (stFns st) F
                    (replaceInstr (fBlocks (stFns st F)) bi j' InnerAI))) in H.
      change (setBody (stFns st) F (replaceInstr (fBlocks (stFns st F)) bi j' InnerAI))
        with (stFns st1) in H.
      destruct (getCalleeFunction (stFns st1) F InnerAI) as [[|g|] fns2] eqn:Eg;
        [exact (IHi _ _ _ _ _ _ _ _ H HF)| |discriminate].
      destruct (runOnFunctionRecursively ci n g (Some (applyLoc InnerAI)) S (withFns st1 fns2))
        as [[b3 st3|]|] eqn:Er; try discriminate.
      destruct (IHr _ _ _ _ _ _ Er) as (R1 & _). simpl in R1.
      destruct b3.
      * assert (K : forall st4, stFullyInlined st4 = stFullyInlined st3 ->
                  scanInsts ci n F AI S st4 bi j' = Some (Done b st') \/
                  (exists bi' j'', scanInsts ci n F AI S st4 bi' j'' = Some (Done b st')) ->
                  (forall X, In X S -> X <> F -> In X (stFullyInlined st') -> In X (stFullyInlined st)) /\
                  (b = true -> In F (stFullyInlined st')) /\
                  (b = false -> In F (stFullyInlined st') -> In F (stFullyInlined st))).
        { intros st4 E4 [H4|(bi' & j'' & H4)];
            destruct (IHi _ _ _ _ _ _ _ _ H4 HF) as (T1 & T2 & T3);
            (split; [intros X HX HXF Hin; apply R1; [exact HX|rewrite <- E4; apply T1; assumption]|]);
            (split; [exact T2|intros Hb Hin; apply R1; [exact HF|rewrite <- E4; apply T3; assumption]]). }
        destruct (ci InnerAI).
        -- destruct (inlineFunction (fBlocks (stFns st3 F)) bi j' (applyArgs InnerAI) (fBlocks (stFns st3 g)))
             as [bs' tail].
           eapply K; [|right; eexists _, _; exact H]. reflexivity.
        -- eapply K; [|left; exact H]. reflexivity.
      * injection H as <- <-.
        assert (E : stFullyInlined (match AI with
                                    | Some l => addDiag st3 (note_while_inlining l)
                                    | None => st3 end) = stFullyInlined st3)
          by (destruct AI; reflexivity).
        rewrite E. split; [intros X HX _; apply R1, HX|].
        split; [discriminate|]. intros _. apply R1, HF.
Qed.

End FullyInlined.

Theorem run_records_fully_inlined ci fuel F AI S st b st'
  (Hrun : runOnFunctionRecursively ci fuel F AI S st = Some (Done b st')) :
  (b = true <-> In F (stFullyInlined st')) /\
  (forall X, In X S -> In X (stFullyInlined st') -> In X (stFullyInlined st)).
Proof.
  destruct (proj1 (fully_run ci fuel) _ _ _ _ _ _ Hrun) as [H1 H2]. split; assumption.
Qed.

Lemma pass_keeps_attributes_witness :
  exists st fs,
    MandatoryInlining_run (fun _ => true) (fun bs => bs) 20 false fnsCall [0; 1]
      = Some (Finished st fs) /\
    stFns st 0 = withBlocks (fnsCall 0) (fBlocks (stFns st 0)).
Proof.
  destruct (MandatoryInlining_run (fun _ => true) (fun bs => bs) 20 false fnsCall [0; 1])
    as [[st fs|]|] eqn:E; try (vm_compute in E; discriminate).
  exists st, fs. split; [reflexivity|].
  exact (pass_keeps_attributes (fun _ => true) (fun bs => bs) 20 false fnsCall [0; 1] st fs E 0).
Defined.

Lemma pass_keeps_bodies_witness :
  exists st fs,
    MandatoryInlining_run (fun _ => true) (fun bs => bs) 20 false fnsCall [0; 1]
      = Some (Finished st fs) /\
    (fBlocks (fnsCall 0) <> [] -> fBlocks (stFns st 0) <> []) /\
    (fBlocks (fnsCall 0) = [] -> fSerializedBody (fnsCall 0) = [] -> fBlocks (stFns st 0) = []).
Proof.
  destruct (MandatoryInlining_run (fun _ => true) (fun bs => bs) 20 false fnsCall [0; 1])
    as [[st fs|]|] eqn:E; try (vm_compute in E; discriminate).
  exists st, fs. split; [reflexivity|].
  exact (pass_keeps_bodies (fun _ => true) (fun bs => bs) 20 false fnsCall [0; 1] st fs
           (fun bs => conj (fun H => H) (fun H => H)) E 0).
Defined.

Lemma run_frame_witness :
  exists b st',
    runOnFunctionRecursively (fun _ => true) 20 0 None [] (initialState fnsCall)
      = Some (Done b st') /\
    stFns st' 2 = stFns (initialState fnsCall) 2.
Proof.
  destruct (runOnFunctionRecursively (fun _ => true) 20 0 None [] (initialState fnsCall))
    as [[b st'|]|] eqn:E; try (vm_compute in E; discriminate).
  exists b, st'. split; [reflexivity|].
  apply (run_frame (fun _ => true) 20 0 None [] (initialState fnsCall) b st' E 2).
  - discriminate.
  - left; reflexivity.
Defined.

Lemma run_success_no_diagnostics_witness :
  exists st',
    runOnFunctionRecursively (fun _ => true) 20 0 None [] (initialState fnsCall)
      = Some (Done true st') /\
    stDiags st' = stDiags (initialState fnsCall).
Proof.
  destruct (runOnFunctionRecursively (fun _ => true) 20 0 None [] (initialState fnsCall))
    as [[[|] st'|]|] eqn:E; try (vm_compute in E; discriminate).
  exists st'. split; [reflexivity|].
  exact (run_success_no_diagnostics (fun _ => true) 20 0 None [] (initialState fnsCall) st' E).
Defined.

Lemma run_records_fully_inlined_witness :
  exists b st',
    runOnFunctionRecursively (fun _ => true) 20 1 (Some 10) [0] (initialState fnsCall)
      = Some (Done b st') /\
    b = true /\ stFullyInlined st' = [1] /\
    (b = true <-> In 1 (stFullyInlined st')) /\
    (forall X, In X [0] -> In X (stFullyInlined st') ->
       In X (stFullyInlined (initialState fnsCall))).
Proof.
  destruct (runOnFunctionRecursively (fun _ => true) 20 1 (Some 10) [0] (initialState fnsCall))
    as [[b st'|]|] eqn:E; try (vm_compute in E; discriminate).
  assert (Hb : b = true /\ stFullyInlined st' = [1])
    by (vm_compute in E; injection E as <- <-; split; reflexivity).
  exists b, st'. split; [reflexivity|]. split; [exact (proj1 Hb)|]. split; [exact (proj2 Hb)|].
  exact (run_records_fully_inlined (fun _ => true) 20 1 (Some 10) [0] (initialState fnsCall) b st' E).
Defined.

End DriverExtra.

Module CalleeCleanupFacts.
Import CalleeResolution CalleeExamples CalleeResolutionFacts CalleeCleanup.

Lemma liveIds_app s t : liveIds (s ++ t) = liveIds s ++ liveIds t.
Proof. unfold liveIds. apply flat_map_app. Qed.

Lemma liveIds_erase s x :
  liveIds (bsv_erase s x) = filter (fun y => negb (Nat.eqb y x)) (liveIds s).
Proof.
  induction s as [|[y|] s IH]; simpl; auto.
  destruct (Nat.eqb y x); simpl; rewrite IH; auto.
Qed.

Lemma existsb_blot s x :
  existsb (fun o => blot_eqb o x) s = existsb (fun y => Nat.eqb y x) (liveIds s).
Proof. induction s as [|[y|] s IH]; simpl; auto. rewrite IH; auto. Qed.

Lemma liveIds_insert s x :
  liveIds (bsv_insert s x) =
  if existsb (fun y => Nat.eqb y x) (liveIds s) then liveIds s else liveIds s ++ [x].
Proof.
  unfold bsv_insert. rewrite existsb_blot.
  destruct (existsb _ _); auto. rewrite liveIds_app. reflexivity.
Qed.

Lemma in_liveIds_insert s x y :
  In y (liveIds (bsv_insert s x)) <-> In y (liveIds s) \/ y = x.
Proof.
  rewrite liveIds_insert. case_eq (existsb (fun y => Nat.eqb y x) (liveIds s)).
  - intros E. rewrite existsb_exists in E. destruct E as [z [Hz Ez]].
    apply Nat.eqb_eq in Ez; subst. split; [tauto|]. intros [H|H]; subst; auto.
  - intros _. rewrite in_app_iff. simpl. intuition.
Qed.

Lemma NoDup_liveIds_insert s x :
  NoDup (liveIds s) -> NoDup (liveIds (bsv_insert s x)).
Proof.
  intros H. rewrite liveIds_insert. case_eq (existsb (fun y => Nat.eqb y x) (liveIds s)).
  - auto.
  - intros E. apply NoDup_app; auto.
    + repeat constructor; simpl; tauto.
    + intros y Hy [<-|[]]. assert (existsb (fun y => Nat.eqb y x) (liveIds s) = true)
        by (apply existsb_exists; exists x; split; auto; apply Nat.eqb_refl).
      congruence.
Qed.

Lemma recordDeadFunction_fold f ops s :
  NoDup (liveIds s) ->
  NoDup (liveIds (fold_left
    (fun s operandVal =>
       if isFunctionTyped f operandVal then
         match findInst f operandVal with
         | Some deadInst => bsv_insert s (iid deadInst)
         | None => s
         end
       else s) ops s)) /\
  (forall x, In x (liveIds (fold_left
    (fun s operandVal =>
       if isFunctionTyped f operandVal then
         match findInst f operandVal with
         | Some deadInst => bsv_insert s (iid deadInst)
         | None => s
         end
       else s) ops s)) <->
   In x (liveIds s) \/
   (In x ops /\ isFunctionTyped f x = true /\ findInst f x <> None)).
Proof.
  revert s. induction ops as [|o ops IH]; intros s Hs; simpl.
  - split; auto. intros x. intuition.
  - case_eq (isFunctionTyped f o); intros Et.
    + case_eq (findInst f o); [intros di Ed|intros Ed].
      * assert (Hdi : iid di = o) by (apply (findInst_iid f); auto).
        destruct (IH (bsv_insert s (iid di)) (NoDup_liveIds_insert _ _ Hs)) as [N K].
        split; auto. intros x. rewrite K, in_liveIds_insert. rewrite Hdi.
        split.
        -- intros [[H|H]|[H1 [H2 H3]]]; auto.
           right; subst; split; auto. split; congruence.
        -- intros [H|[[<-|H1] [H2 H3]]]; auto.
      * destruct (IH s Hs) as [N K]. split; auto. intros x. rewrite K.
        split; [intros [H|[H1 H2]]; auto|].
        intros [H|[[<-|H1] [H2 H3]]]; auto. congruence.
    + destruct (IH s Hs) as [N K]. split; auto. intros x. rewrite K.
      split; [intros [H|[H1 H2]]; auto|].
      intros [H|[[<-|H1] [H2 H3]]]; auto. congruence.
Qed.

(** [recordDeadFunction] keeps the recorded instructions distinct; after it
    the set holds exactly the earlier entries other than the deleted
    instruction, and the defining instructions of the deleted instruction's
    function-typed operands. *)
Theorem recordDeadFunction_contents f deletedInst s :
  NoDup (liveIds s) ->
  NoDup (liveIds (recordDeadFunction f deletedInst s)) /\
  (forall x, In x (liveIds (recordDeadFunction f deletedInst s)) <->
     (In x (liveIds s) /\ x <> iid deletedInst) \/
     (In x (operands (ikind deletedInst)) /\ isFunctionTyped f x = true /\
      findInst f x <> None)).
Proof.
  intros Hs. unfold recordDeadFunction.
  assert (He : NoDup (liveIds (bsv_erase s (iid deletedInst))))
    by (rewrite liveIds_erase; apply NoDup_filter; auto).
  destruct (recordDeadFunction_fold f (operands (ikind deletedInst)) _ He) as [N K].
  split; auto. intros x. rewrite K, liveIds_erase, filter_In.
  rewrite negb_true_iff, Nat.eqb_neq. tauto.
Qed.
Lemma present_iff f x : present f x = true <-> findInst f x <> None.
Proof. unfold present. destruct (findInst f x); split; congruence. Qed.

Lemma notifyDeleted_length b a s : length (notifyDeleted b a s) = length s.
Proof. apply length_map. Qed.

Lemma notifyDeleted_live b a s x :
  In x (liveIds (notifyDeleted b a s)) ->
  In x (liveIds s) /\ (present b x = true -> present a x = true).
Proof.
  induction s as [|[y|] s IH]; simpl; [tauto| |tauto].
  case_eq (present b y && negb (present a y)); simpl; intros E H.
  - destruct (IH H); auto.
  - destruct H as [->|H]; [|destruct (IH H); auto].
    split; auto. intros Hb. rewrite Hb in E. simpl in E.
    destruct (present a x); auto.
Qed.

Lemma cleanupFrom_in_sync tdc itd rdt rem k f s fresh :
  (forall x, In x (liveIds s) -> findInst f x <> None) ->
  length (snd (cleanupFrom tdc itd rdt rem k f s fresh)) = length s /\
  (forall x, In x (liveIds (snd (cleanupFrom tdc itd rdt rem k f s fresh))) ->
     In x (liveIds s) /\ findInst (fst (cleanupFrom tdc itd rdt rem k f s fresh)) x <> None).
Proof.
  revert k f s fresh. induction rem as [|rem IH]; intros k f s fresh Hs; simpl; auto.
  destruct (nth k s None) as [v|]; [|apply IH; auto].
  destruct (findInst f v) as [SVI|]; [|apply IH; auto].
  destruct (isSingleValue (ikind SVI)); [|apply IH; auto].
  set (f' := cleanupCalleeValue tdc itd rdt f v fresh).
  assert (Hs' : forall x, In x (liveIds (notifyDeleted f f' s)) -> findInst f' x <> None).
  { intros x Hx. apply notifyDeleted_live in Hx as [Hx Hp].
    apply present_iff, Hp, present_iff, Hs, Hx. }
  destruct (IH (S k) f' _ (S fresh) Hs') as [L K].
  rewrite notifyDeleted_length in L. split; auto.
  intros x Hx. destruct (K x Hx) as [Hx1 Hx2]. split; auto.
  apply notifyDeleted_live in Hx1. tauto.
Qed.

(** The delete handler keeps [cleanupDeadClosures]'s set in step with the
    function: the set only loses entries, keeps its length (erasure blots a
    slot), and if every recorded instruction is in the function at the start,
    every one still recorded at the end is still in the function. *)
Theorem cleanupDeadClosures_in_sync tdc itd rdt f s fresh :
  (forall x, In x (liveIds s) -> findInst f x <> None) ->
  length (snd (cleanupDeadClosures tdc itd rdt f s fresh)) = length s /\
  (forall x, In x (liveIds (snd (cleanupDeadClosures tdc itd rdt f s fresh))) ->
     In x (liveIds s) /\
     findInst (fst (cleanupDeadClosures tdc itd rdt f s fresh)) x <> None).
Proof. apply cleanupFrom_in_sync. Qed.
(** When the callee value is a [function_ref], [cleanupCalleeValue] erases
    it if nothing uses it any more and otherwise leaves the function as it
    is; the closure and conversion utilities are never called. *)
Theorem cleanupCalleeValue_function_ref tdc itd rdt f v fresh g :
  definingKind f v = Some (KFunctionRef g) ->
  cleanupCalleeValue tdc itd rdt f v fresh =
  match users f v with [] => eraseInst f v | _ :: _ => f end.
Proof.
  unfold cleanupCalleeValue, definingKind. intros E.
  destruct (findInst f v) as [i|] eqn:Ef; [|discriminate].
  simpl in E. injection E as E. unfold isLoad. rewrite E.
  repeat (rewrite Ef; simpl; rewrite E; simpl). reflexivity.
Qed.
Lemma recordDeadFunction_contents_witness :
  recordDeadFunction ex_caller ex_ai [Some 3; Some 2; None; Some 1] = [None; Some 2; None; Some 1] /\
  NoDup (liveIds [Some 3; Some 2; None; Some 1]) /\
  NoDup (liveIds (recordDeadFunction ex_caller ex_ai [Some 3; Some 2; None; Some 1])) /\
  (forall x, In x (liveIds (recordDeadFunction ex_caller ex_ai [Some 3; Some 2; None; Some 1])) <->
     (In x (liveIds [Some 3; Some 2; None; Some 1]) /\ x <> iid ex_ai) \/
     (In x (operands (ikind ex_ai)) /\ isFunctionTyped ex_caller x = true /\
      findInst ex_caller x <> None)).
Proof.
  assert (H : NoDup (liveIds [Some 3; Some 2; None; Some 1]))
    by (simpl; repeat constructor; simpl; intuition discriminate).
  split; [reflexivity|]. split; [exact H|].
  apply (recordDeadFunction_contents ex_caller ex_ai [Some 3; Some 2; None; Some 1]). exact H.
Defined.

Lemma cleanupDeadClosures_in_sync_witness :
  let tdc := fun (f : SILFunction) (v : ValueId) => (true, eraseInst f v) in
  let itd := fun (_ : SILFunction) (_ : ValueId) => false in
  let rdt := fun (f : SILFunction) (_ : ValueId) => f in
  let f := eraseInst ex_caller 3 in
  snd (cleanupDeadClosures tdc itd rdt f [Some 2; Some 0] 20) = [None; None] /\
  findInst (fst (cleanupDeadClosures tdc itd rdt f [Some 2; Some 0] 20)) 2 = None /\
  findInst (fst (cleanupDeadClosures tdc itd rdt f [Some 2; Some 0] 20)) 0 = None /\
  (forall x, In x (liveIds [Some 2; Some 0]) -> findInst f x <> None) /\
  length (snd (cleanupDeadClosures tdc itd rdt f [Some 2; Some 0] 20)) = 2 /\
  (forall x, In x (liveIds (snd (cleanupDeadClosures tdc itd rdt f [Some 2; Some 0] 20))) ->
     In x (liveIds [Some 2; Some 0]) /\
     findInst (fst (cleanupDeadClosures tdc itd rdt f [Some 2; Some 0] 20)) x <> None).
Proof.
  intros tdc itd rdt f.
  assert (H : forall x, In x (liveIds [Some 2; Some 0]) -> findInst f x <> None)
    by (simpl; intros x [<-|[<-|[]]]; vm_compute; discriminate).
  split; [vm_compute; reflexivity|]. split; [vm_compute; reflexivity|].
  split; [vm_compute; reflexivity|]. split; [exact H|].
  exact (cleanupDeadClosures_in_sync tdc itd rdt f [Some 2; Some 0] 20 H).
Defined.

Lemma cleanupCalleeValue_function_ref_witness :
  definingKind ex_caller 0 = Some (KFunctionRef 7) /\
  cleanupCalleeValue (fun f _ => (false, f)) (fun _ _ => false) (fun f _ => f) ex_caller 0 20 =
  match users ex_caller 0 with [] => eraseInst ex_caller 0 | _ :: _ => ex_caller end.
Proof.
  split; [reflexivity|].
  apply (cleanupCalleeValue_function_ref (fun f _ => (false, f)) (fun _ _ => false) (fun f _ => f)
           ex_caller 0 20 7). reflexivity.
Defined.

End CalleeCleanupFacts.
